(** * vitest-temporary-fixture: the fixture model and the materializer

    A shallow embedding of [src/fixture.ts], [src/fixture-async.ts],
    [src/temporary-fixture.ts] and [src/temporary-fixture-async.ts].

    JavaScript values live in a heap so that object identity (used by the
    cycle check) and aliasing are visible.  The Node.js collaborators
    ([node:path], [node:os], [node:process], [node:fs], [mkdirp] and the
    vitest hooks) are interfaces: the development is parametric in them and
    a POSIX path instance together with a small in-memory disk are provided
    to run the code on concrete inputs. *)

From Stdlib Require Import ZArith Lia Ascii String.
From stdpp Require Import base gmap strings list pretty.

Local Open Scope string_scope.

(** ** JavaScript values *)

Definition ref := nat.

(** The raw values a fixture description can hold.  Functions, symbols and
    bigints are left out: like numbers they are neither strings nor
    objects (a symbol cannot even be formatted into the error message). *)
Inductive value :=
| VUndefined
| VNull
| VBool (b : bool)
| VNum (n : Z)
| VStr (s : string)
| VBuffer (bytes : list Byte.byte)
| VUint8Array (bytes : list Byte.byte)
| VRef (r : ref).

(** A heap cell is a plain object, given by its [Object.entries] in
    enumeration order, or an instance of the module's [Fixture] class with
    its two public, mutable fields. *)
Inductive cell :=
| CObject (entries : list (string * value))
| CFixture (type : string) (content : value).

Abbreviation heap := (gmap ref cell).

Inductive jstype := TyUndefined | TyObject | TyBoolean | TyNumber | TyString.

(** [typeof v]; note [typeof null === 'object']. *)
Definition typeof (v : value) : jstype :=
  match v with
  | VUndefined => TyUndefined
  | VNull => TyObject
  | VBool _ => TyBoolean
  | VNum _ => TyNumber
  | VStr _ => TyString
  | VBuffer _ | VUint8Array _ | VRef _ => TyObject
  end.

Definition is_object (v : value) : bool :=
  match typeof v with TyObject => true | _ => false end.

Definition is_string (v : value) : bool :=
  match typeof v with TyString => true | _ => false end.

(** [Buffer.isBuffer(v) || v instanceof Uint8Array] *)
Definition is_bytes (v : value) : bool :=
  match v with VBuffer _ | VUint8Array _ => true | _ => false end.

(** [v instanceof Fixture] *)
Definition instanceofFixture (h : heap) (v : value) : bool :=
  match v with
  | VRef r => match h !! r with Some (CFixture _ _) => true | _ => false end
  | _ => false
  end.

(** ** Errors and results *)

Inductive error :=
| IllegalPath (dirname : string) (allowed : list string)
| InvalidContent (v : value)
| CycleDetected (dirName : string)
| DirNeedsObject
| FileNeedsStringOrBuffer
| LinkNeedsString (type : string)
| InvalidType (type : string)
| UnknownFixtureType (type : string)
| MissingTarget
| FsError (code : string)
| JsTypeError (message : string)
| HookUnavailable
| CreateTestDirFailed (cause : error).

(** The error kinds of the specification. *)
Inductive error_kind :=
| InvalidKindError
| InvalidContentError
| CycleDetectedError
| IllegalPathError
| MissingSymlinkTargetError
| OtherError.

Definition kind_of (e : error) : error_kind :=
  match e with
  | IllegalPath _ _ => IllegalPathError
  | InvalidContent _ | DirNeedsObject | FileNeedsStringOrBuffer
  | LinkNeedsString _ => InvalidContentError
  | CycleDetected _ => CycleDetectedError
  | InvalidType _ | UnknownFixtureType _ => InvalidKindError
  | MissingTarget => MissingSymlinkTargetError
  | FsError _ | JsTypeError _ | HookUnavailable
  | CreateTestDirFailed _ => OtherError
  end.

(** A computation returns, throws, or runs out of fuel. *)
Inductive result (A : Type) :=
| Ok (a : A)
| Throw (e : error)
| Diverge.
Arguments Ok {A} a.
Arguments Throw {A} e.
Arguments Diverge {A}.

Definition rbind {A B} (m : result A) (k : A → result B) : result B :=
  match m with
  | Ok a => k a
  | Throw e => Throw e
  | Diverge => Diverge
  end.

Declare Scope js_scope.
Delimit Scope js_scope with js.
Notation "'let?' x ':=' m 'in' k" := (rbind m (fun x => k))
  (at level 10, x pattern, m at level 100, k at level 200) : js_scope.
Local Open Scope js_scope.

(** ** Object.entries *)

Fixpoint indexed {A} (f : A → value) (i : nat) (l : list A)
  : list (string * value) :=
  match l with
  | [] => []
  | x :: rest => (pretty i, f x) :: indexed f (S i) rest
  end.

Definition char_value (c : ascii) : value := VStr (String c EmptyString).
Definition byte_value (b : Byte.byte) : value := VNum (Z.of_N (Byte.to_N b)).

(** [Object.entries(v)].  It throws on [null] and [undefined]; a string or
    a byte array enumerates its indices; a [Fixture] instance enumerates
    its two fields. *)
Definition objectEntries (h : heap) (v : value) : result (list (string * value)) :=
  match v with
  | VUndefined | VNull =>
      Throw (JsTypeError "Cannot convert undefined or null to object")
  | VBool _ | VNum _ => Ok []
  | VStr s => Ok (indexed char_value 0 (list_ascii_of_string s))
  | VBuffer bs | VUint8Array bs => Ok (indexed byte_value 0 bs)
  | VRef r =>
      match h !! r with
      | Some (CObject es) => Ok es
      | Some (CFixture t c) => Ok [("type", VStr t); ("content", c)]
      | None => Ok []
      end
  end.

(** ** The fixture model: [fixture.ts] *)

Definition fixtureType (h : heap) (v : value) : option string :=
  match v with
  | VRef r => match h !! r with Some (CFixture t _) => Some t | _ => None end
  | _ => None
  end.

Definition fixtureContent (h : heap) (v : value) : option value :=
  match v with
  | VRef r => match h !! r with Some (CFixture _ c) => Some c | _ => None end
  | _ => None
  end.

(** [rawToType] *)
Definition rawToType (h : heap) (content : value) : result string :=
  match fixtureType h content with
  | Some t => Ok t
  | None =>
      if is_string content || is_bytes content then Ok "file"
      else if is_object content then Ok "dir"
      else Throw (InvalidContent content)
  end.

(** The identities held by the [seen] set.  Only references are ever
    looked up in it. *)
Definition identity (v : value) : gset ref :=
  match v with VRef r => {[ r ]} | _ => ∅ end.

(** The [for] loop of [validateDirContents]; [rec] is the recursive call. *)
Fixpoint validateEntries (rec : value → gset ref → result (gset ref))
    (h : heap) (entries : list (string * value)) (seen : gset ref)
  : result (gset ref) :=
  match entries with
  | [] => Ok seen
  | (dirName, dirContent) :: rest =>
      let? contentType := rawToType h dirContent in
      if String.eqb contentType "dir" && is_object dirContent
         && negb (instanceofFixture h dirContent)
      then
        match dirContent with
        | VRef r =>
            if decide (r ∈ seen) then Throw (CycleDetected dirName)
            else
              let? seen' := rec dirContent ({[ r ]} ∪ seen) in
              validateEntries rec h rest seen'
        | _ =>
            let? seen' := rec dirContent seen in
            validateEntries rec h rest seen'
        end
      else validateEntries rec h rest seen
  end.

(** [validateDirContents]; the set [seen] is mutated in place by the source
    and is returned here. *)
Fixpoint validateDirContents (fuel : nat) (h : heap) (content : value)
    (seen : gset ref) : result (gset ref) :=
  match fuel with
  | 0 => Diverge
  | S fuel' =>
      let? entries := objectEntries h content in
      validateEntries (validateDirContents fuel' h) h entries seen
  end.

(** Every recursive call adds a fresh object of the heap to [seen], so one
    unit of fuel per heap cell, and one more, is enough. *)
Definition validationFuel (h : heap) : nat := S (S (size h)).

(** [assertValidContent] *)
Definition assertValidContent (h : heap) (type : string) (content : value)
  : result unit :=
  if String.eqb type "dir" then
    if negb (is_object content) then Throw DirNeedsObject
    else
      let? _ := validateDirContents (validationFuel h) h content (identity content) in
      Ok tt
  else if String.eqb type "file" then
    if negb (is_string content) && negb (is_bytes content)
    then Throw FileNeedsStringOrBuffer
    else Ok tt
  else if String.eqb type "link" || String.eqb type "symlink" then
    if negb (is_string content) then Throw (LinkNeedsString type)
    else Ok tt
  else Throw (InvalidType type).

(** [new Fixture(type, content)]: validate, then allocate the instance. *)
Definition newFixture (h : heap) (type : string) (content : value)
  : result (heap * value) :=
  let? _ := assertValidContent h type content in
  let r := fresh (dom h) in
  Ok (<[ r := CFixture type content ]> h, VRef r).

(** [rawToFixture]: a [Fixture] instance is returned as it is, with no new
    validation; a raw value is classified and wrapped, which validates it.
    The result is the instance's [type] and [content]. *)
Definition rawToFixture (h : heap) (content : value) : result (string * value) :=
  match fixtureType h content, fixtureContent h content with
  | Some t, Some c => Ok (t, c)
  | _, _ =>
      let? t := rawToType h content in
      let? _ := assertValidContent h t content in
      Ok (t, content)
  end.

(** ** The collaborators *)

(** [node:path], [process.cwd()] and [os.tmpdir()]. *)
Class Platform := {
  cwd : string;
  tmpdir : string;
  normalize : string → string;
  dirname : string → string;
  join : string → string → string;
  resolve : string → string → string;
}.

Inductive symlinkType := SymFile | SymJunction.

Inductive data := DText (s : string) | DBytes (bytes : list Byte.byte).

(** The calls made to [node:fs] and [mkdirp]. *)
Inductive FsCall :=
| Mkdirp (p : string)
| WriteFile (p : string) (d : data)
| Link (existingPath newPath : string)
| Symlink (target p : string) (type : symlinkType)
| Stat (p : string)
| Mkdtemp (prefix : string)
| RmRecursive (p : string).

(** What a call returns: [stat] answers [isDirectory()], [mkdtemp] the
    created path. *)
Definition reply (c : FsCall) : Type :=
  match c with
  | Stat _ => bool
  | Mkdtemp _ => string
  | _ => unit
  end.

Inductive fs_result (A : Type) :=
| FsOk (a : A)
| FsFail (code : string).
Arguments FsOk {A} a.
Arguments FsFail {A} code.

Class FileSystem (FS : Type) := {
  fs_exec : ∀ c : FsCall, FS → fs_result (reply c) * FS
}.

(** The trace records every call with a summary of its outcome. *)
Inductive outcome :=
| Done
| IsDirectory (b : bool)
| Created (p : string)
| Failed (code : string).

Record event := Ev { ev_call : FsCall; ev_outcome : outcome }.

Definition summarize (c : FsCall) : fs_result (reply c) → outcome :=
  match c as c0 return fs_result (reply c0) → outcome with
  | Stat _ => fun r => match r with FsOk b => IsDirectory b | FsFail e => Failed e end
  | Mkdtemp _ => fun r => match r with FsOk p => Created p | FsFail e => Failed e end
  | _ => fun r => match r with FsOk _ => Done | FsFail e => Failed e end
  end.

(** ** JavaScript [Set<string>] and string-keyed tables, in insertion order *)

Definition set_has (x : string) (s : list string) : bool := bool_decide (x ∈ s).

Definition set_add (x : string) (s : list string) : list string :=
  if set_has x s then s else s ++ [x].

(** [table[key] = v]; the keys are paths, never array indices. *)
Fixpoint table_set (key v : string) (t : list (string * string))
  : list (string * string) :=
  match t with
  | [] => [(key, v)]
  | (k, v0) :: rest =>
      if String.eqb k key then (k, v) :: rest
      else (k, v0) :: table_set key v rest
  end.

(** ** The process state seen by one module *)

Record world (FS : Type) := World {
  allowedPaths : list string;
  disk : FS;
  trace : list event;
}.
Arguments World {FS}.
Arguments allowedPaths {FS}.
Arguments disk {FS}.
Arguments trace {FS}.

Definition toData (v : value) : option data :=
  match v with
  | VStr s => Some (DText s)
  | VBuffer bs | VUint8Array bs => Some (DBytes bs)
  | _ => None
  end.

Definition is_dir (t : string) : bool := String.eqb t "dir".
Definition is_file (t : string) : bool := String.eqb t "file".
Definition is_link (t : string) : bool := String.eqb t "link".
Definition is_symlink (t : string) : bool := String.eqb t "symlink".

(** A synchronous computation: it may read and write the process state
    and what it wrote stays written when it throws. *)
Definition M (FS : Type) (A : Type) : Type := world FS → result A * world FS.

Module Sync.
Section Sync.
Context {FS : Type}.

Definition ret {A} (a : A) : M FS A := fun w => (Ok a, w).
Definition throw {A} (e : error) : M FS A := fun w => (Throw e, w).
Definition diverge {A} : M FS A := fun w => (Diverge, w).
Definition bind {A B} (m : M FS A) (k : A → M FS B) : M FS B :=
  fun w => match m w with
           | (Ok a, w') => k a w'
           | (Throw e, w') => (Throw e, w')
           | (Diverge, w') => (Diverge, w')
           end.
Definition lift {A} (r : result A) : M FS A := fun w => (r, w).
Definition when (b : bool) (m : M FS unit) : M FS unit :=
  if b then m else ret tt.

Definition setAllowed (f : list string → list string) : M FS unit :=
  fun w => (Ok tt, World (f (allowedPaths w)) (disk w) (trace w)).

(** [try { m } catch (e) { handler e }] *)
Definition tryCatch {A} (m : M FS A) (handler : error → M FS A) : M FS A :=
  fun w => match m w with
           | (Throw e, w') => handler e w'
           | r => r
           end.

Context `{FileSystem FS}.

Definition call (c : FsCall) : M FS (fs_result (reply c)) :=
  fun w => let '(r, d) := fs_exec c (disk w) in
           (Ok r, World (allowedPaths w) d (trace w ++ [Ev c (summarize c r)])).

(** A call whose failure is thrown to the caller. *)
Definition callOrThrow (c : FsCall) : M FS (reply c) :=
  bind (call c) (fun r =>
    match r with
    | FsOk a => ret a
    | FsFail code => throw (FsError code)
    end).
End Sync.
End Sync.

Declare Scope sync_scope.
Delimit Scope sync_scope with sync.
Notation "'do' x <- m ; k" := (Sync.bind m (fun x => k))
  (at level 10, x pattern, m at level 100, k at level 200) : sync_scope.

(** ** The materializer: [fixture.ts] *)

Module Fixture.
Section Fixture.
Context `{Platform} {FS : Type} `{FileSystem FS}.
Import Sync.
Local Open Scope sync_scope.

(** [resetAllowedPaths] *)
Definition resetAllowedPaths : M FS unit :=
  setAllowed (fun _ => set_add tmpdir (set_add cwd [])).

(** [checkIfPathExists]; the answer is [stats.isDirectory()]. *)
Definition checkIfPathExists (pathIn : string) : M FS bool :=
  do r <- call (Stat pathIn);
  match r with
  | FsOk isDirectory => ret isDirectory
  | FsFail code =>
      if String.eqb code "ENOENT" then throw MissingTarget
      else throw (FsError code)
  end.

(** [checkIfPathIsAllowed] *)
Definition checkIfPathIsAllowed (newPath : string) : M FS bool :=
  fun w =>
    let dirname := dirname newPath in
    if set_has dirname (allowedPaths w) then (Ok true, w)
    else (Throw (IllegalPath dirname (allowedPaths w)), w).

(** [getSymLinkTargetType] *)
Definition getSymLinkTargetType (targetPath : string) : M FS symlinkType :=
  do isDirectory <- checkIfPathExists targetPath;
  ret (if isDirectory : bool then SymJunction else SymFile).

(** The loop over the entries of a directory fixture; [rec] is the
    recursive call, which receives the shared [symlinks] table and returns
    it as the call left it. *)
Fixpoint makeEntries
    (rec : string → value → option (list (string * string))
           → M FS (list (string * string)))
    (normalizedPath : string) (entries : list (string * value))
    (symlinks : list (string * string)) : M FS (list (string * string)) :=
  match entries with
  | [] => ret symlinks
  | (name, nestedFixture) :: rest =>
      do symlinks' <- rec (join normalizedPath name) nestedFixture (Some symlinks);
      makeEntries rec normalizedPath rest symlinks'
  end.

(** One turn of the final loop of [make]. *)
Definition createSymlink (symlinkPath target : string) : M FS unit :=
  do _ <- checkIfPathIsAllowed symlinkPath;
  do _ <- checkIfPathIsAllowed target;
  do symlinkType <- getSymLinkTargetType target;
  callOrThrow (Symlink target symlinkPath symlinkType).

(** The final loop of [make]: create the gathered symlinks. *)
Fixpoint flushSymlinks (entries : list (string * string)) : M FS unit :=
  match entries with
  | [] => ret tt
  | (symlinkPath, target) :: rest =>
      do _ <- createSymlink symlinkPath target;
      flushSymlinks rest
  end.

(** The dispatch of [make] on the fixture's type. *)
Definition makeNode
    (rec : string → value → option (list (string * string))
           → M FS (list (string * string)))
    (h : heap) (isRoot : bool) (normalizedPath type : string)
    (fcontent : value) (symlinks : list (string * string))
  : M FS (list (string * string)) :=
  if is_dir type then
    do _ <- checkIfPathIsAllowed normalizedPath;
    do _ <- callOrThrow (Mkdirp normalizedPath);
    do _ <- when isRoot (setAllowed (fun _ => []));
    do _ <- setAllowed (set_add normalizedPath);
    do entries <- lift (objectEntries h fcontent);
    makeEntries rec normalizedPath entries symlinks
  else if is_file type then
    do _ <- checkIfPathIsAllowed normalizedPath;
    match toData fcontent with
    | Some d => do _ <- callOrThrow (WriteFile normalizedPath d); ret symlinks
    | None => throw (JsTypeError "ERR_INVALID_ARG_TYPE")
    end
  else if is_link type then
    let normalizedPathDirName := dirname normalizedPath in
    match fcontent with
    | VStr target =>
        let existingPath := resolve normalizedPathDirName target in
        do _ <- checkIfPathIsAllowed existingPath;
        do _ <- checkIfPathIsAllowed normalizedPath;
        do _ <- callOrThrow (Link existingPath normalizedPath);
        ret symlinks
    | _ => throw (JsTypeError "ERR_INVALID_ARG_TYPE")
    end
  else if is_symlink type then
    match fcontent with
    | VStr target =>
        let targetPath := resolve (dirname normalizedPath) target in
        ret (table_set normalizedPath targetPath symlinks)
    | _ => throw (JsTypeError "ERR_INVALID_ARG_TYPE")
    end
  else throw (UnknownFixtureType type).

(** [Fixture.make].  [pathIn] is typed as a string, so the guard on its
    runtime type never fires.  [symlinks = None] is the source's [null]:
    a top-level call.  The table is returned as the call left it. *)
Fixpoint make (fuel : nat) (h : heap) (pathIn : string) (content : value)
    (symlinks : option (list (string * string)))
  : M FS (list (string * string)) :=
  match fuel with
  | 0 => diverge
  | S fuel' =>
      let normalizedPath := normalize pathIn in
      do fixture <- lift (rawToFixture h content);
      let isRoot := match symlinks with None => true | Some _ => false end in
      let symlinks := default [] symlinks in
      do _ <- when isRoot resetAllowedPaths;
      do symlinks <- makeNode (make fuel' h) h isRoot normalizedPath
                       (fst fixture) (snd fixture) symlinks;
      do _ <- when isRoot (flushSymlinks symlinks);
      ret symlinks
  end.
End Fixture.
End Fixture.

(** ** Asynchronous computations

    An [async] function runs until it awaits a filesystem call; the call
    is handed to the event loop, which resumes the function with the
    answer. *)

Inductive task (X : Type) : Type :=
| Finished (x : X)
| Await (c : FsCall) (k : fs_result (reply c) → task X).
Arguments Finished {X} x.
Arguments Await {X} c k.

Fixpoint tbind {X Y} (t : task X) (f : X → task Y) : task Y :=
  match t with
  | Finished x => f x
  | Await c k => Await c (fun r => tbind (k r) f)
  end.

(** An asynchronous computation over the module state [S]. *)
Definition AM (S A : Type) : Type := S → task (result A * S).

Module Async.
Section Async.
Context {S : Type}.

Definition ret {A} (a : A) : AM S A := fun s => Finished (Ok a, s).
Definition throw {A} (e : error) : AM S A := fun s => Finished (Throw e, s).
Definition diverge {A} : AM S A := fun s => Finished (Diverge, s).
Definition bind {A B} (m : AM S A) (k : A → AM S B) : AM S B :=
  fun s => tbind (m s) (fun rs =>
    match rs with
    | (Ok a, s') => k a s'
    | (Throw e, s') => Finished (Throw e, s')
    | (Diverge, s') => Finished (Diverge, s')
    end).
Definition lift {A} (r : result A) : AM S A := fun s => Finished (r, s).
Definition when (b : bool) (m : AM S unit) : AM S unit :=
  if b then m else ret tt.
Definition modify (f : S → S) : AM S unit := fun s => Finished (Ok tt, f s).

(** [await] of a filesystem promise. *)
Definition await (c : FsCall) : AM S (fs_result (reply c)) :=
  fun s => Await c (fun r => Finished (Ok r, s)).

Definition awaitOrThrow (c : FsCall) : AM S (reply c) :=
  bind (await c) (fun r =>
    match r with
    | FsOk a => ret a
    | FsFail code => throw (FsError code)
    end).

Definition tryCatch {A} (m : AM S A) (handler : error → AM S A) : AM S A :=
  fun s => tbind (m s) (fun rs =>
    match rs with
    | (Throw e, s') => handler e s'
    | _ => Finished rs
    end).

(** Run a computation of a module with state [S'] inside [S]. *)
Definition zoom {S' A} (get : S → S') (set : S' → S → S) (m : AM S' A)
  : AM S A :=
  fun s => tbind (m (get s)) (fun rs => Finished (rs.1, set rs.2 s)).
End Async.

(** The event loop with a single function in flight: every awaited call
    is executed on the disk and the function is resumed at once. *)
Fixpoint run {FS : Type} `{FileSystem FS} {X} (t : task X) (d : FS)
    (tr : list event) : X * FS * list event :=
  match t with
  | Finished x => (x, d, tr)
  | Await c k =>
      let '(r, d') := fs_exec c d in
      run (k r) d' (tr ++ [Ev c (summarize c r)])
  end.
End Async.

Declare Scope async_scope.
Delimit Scope async_scope with async.
Notation "'do' x <- m ; k" := (Async.bind m (fun x => k))
  (at level 10, x pattern, m at level 100, k at level 200) : async_scope.

(** ** The asynchronous materializer: [fixture-async.ts]

    Its module state is its own [allowedPaths] set. *)

Module FixtureAsync.
Section FixtureAsync.
Context `{Platform}.
Import Async.
Local Open Scope async_scope.

Abbreviation A := (AM (list string)).

(** [resetAllowedPaths] *)
Definition resetAllowedPaths : A unit :=
  modify (fun _ => set_add tmpdir (set_add cwd [])).

(** [checkIfPathExists] *)
Definition checkIfPathExists (pathIn : string) : A bool :=
  do r <- await (Stat pathIn);
  match r with
  | FsOk isDirectory => ret isDirectory
  | FsFail code =>
      if String.eqb code "ENOENT" then throw MissingTarget
      else throw (FsError code)
  end.

(** [checkIfPathIsAllowed] *)
Definition checkIfPathIsAllowed (newPath : string) : A bool :=
  fun allowedPaths =>
    let dirname := dirname newPath in
    if set_has dirname allowedPaths then Finished (Ok true, allowedPaths)
    else Finished (Throw (IllegalPath dirname allowedPaths), allowedPaths).

(** [getSymLinkTargetType] *)
Definition getSymLinkTargetType (targetPath : string) : A symlinkType :=
  do isDirectory <- checkIfPathExists targetPath;
  ret (if isDirectory : bool then SymJunction else SymFile).

Fixpoint makeEntries
    (rec : string → value → option (list (string * string))
           → A (list (string * string)))
    (normalizedPath : string) (entries : list (string * value))
    (symlinks : list (string * string)) : A (list (string * string)) :=
  match entries with
  | [] => ret symlinks
  | (name, nestedFixture) :: rest =>
      do symlinks' <- rec (join normalizedPath name) nestedFixture (Some symlinks);
      makeEntries rec normalizedPath rest symlinks'
  end.

Definition createSymlink (symlinkPath target : string) : A unit :=
  do _ <- checkIfPathIsAllowed symlinkPath;
  do _ <- checkIfPathIsAllowed target;
  do symlinkType <- getSymLinkTargetType target;
  awaitOrThrow (Symlink target symlinkPath symlinkType).

Fixpoint flushSymlinks (symlinkEntries : list (string * string)) : A unit :=
  match symlinkEntries with
  | [] => ret tt
  | (symlinkPath, target) :: rest =>
      do _ <- createSymlink symlinkPath target;
      flushSymlinks rest
  end.

Definition makeNode
    (rec : string → value → option (list (string * string))
           → A (list (string * string)))
    (h : heap) (isRoot : bool) (normalizedPath type : string)
    (fcontent : value) (symlinks : list (string * string))
  : A (list (string * string)) :=
  if is_dir type then
    do _ <- checkIfPathIsAllowed normalizedPath;
    do _ <- awaitOrThrow (Mkdirp normalizedPath);
    do _ <- when isRoot (modify (fun _ => []));
    do _ <- modify (set_add normalizedPath);
    do entries <- lift (objectEntries h fcontent);
    makeEntries rec normalizedPath entries symlinks
  else if is_file type then
    do _ <- checkIfPathIsAllowed normalizedPath;
    match toData fcontent with
    | Some d => do _ <- awaitOrThrow (WriteFile normalizedPath d); ret symlinks
    | None => throw (JsTypeError "ERR_INVALID_ARG_TYPE")
    end
  else if is_link type then
    let normalizedPathDirName := dirname normalizedPath in
    match fcontent with
    | VStr target =>
        let existingPath := resolve normalizedPathDirName target in
        do _ <- checkIfPathIsAllowed existingPath;
        do _ <- checkIfPathIsAllowed normalizedPath;
        do _ <- awaitOrThrow (Link existingPath normalizedPath);
        ret symlinks
    | _ => throw (JsTypeError "ERR_INVALID_ARG_TYPE")
    end
  else if is_symlink type then
    match fcontent with
    | VStr target =>
        let targetPath := resolve (dirname normalizedPath) target in
        ret (table_set normalizedPath targetPath symlinks)
    | _ => throw (JsTypeError "ERR_INVALID_ARG_TYPE")
    end
  else throw (UnknownFixtureType type).

(** [FixtureAsync.make] *)
Fixpoint make (fuel : nat) (h : heap) (pathIn : string) (content : value)
    (symlinks : option (list (string * string)))
  : A (list (string * string)) :=
  match fuel with
  | 0 => diverge
  | S fuel' =>
      let normalizedPath := normalize pathIn in
      do fixture <- lift (rawToFixture h content);
      let isRoot := match symlinks with None => true | Some _ => false end in
      let symlinks := default [] symlinks in
      do _ <- when isRoot resetAllowedPaths;
      do symlinks <- makeNode (make fuel' h) h isRoot normalizedPath
                       (fst fixture) (snd fixture) symlinks;
      do _ <- when isRoot (flushSymlinks symlinks);
      ret symlinks
  end.
End FixtureAsync.
End FixtureAsync.

(** ** The test-directory wrappers: [temporary-fixture.ts] and
    [temporary-fixture-async.ts] *)

(** The private fields of a [TestFixtures] instance. *)
Record TestFixtures := {
  testDir : option string;
  testFinished : bool;
  createdTestDir : bool;
  keepFixture : bool;
}.

Definition newTestFixtures : TestFixtures :=
  {| testDir := None; testFinished := false; createdTestDir := false;
     keepFixture := false |}.

(** The test runner: outside of a running test its hooks throw; inside
    they register the callback.  Both callbacks registered by the wrappers
    are [handleTestEnd], so counting them is enough. *)
Record Runner := {
  hooksAvailable : bool;
  onTestFailedHooks : nat;
  onTestFinishedHooks : nat;
}.

Definition onTestFailed (rn : Runner) : result unit * Runner :=
  if hooksAvailable rn then
    (Ok tt, {| hooksAvailable := true;
               onTestFailedHooks := S (onTestFailedHooks rn);
               onTestFinishedHooks := onTestFinishedHooks rn |})
  else (Throw HookUnavailable, rn).

Definition onTestFinished (rn : Runner) : result unit * Runner :=
  if hooksAvailable rn then
    (Ok tt, {| hooksAvailable := true;
               onTestFailedHooks := onTestFailedHooks rn;
               onTestFinishedHooks := S (onTestFinishedHooks rn) |})
  else (Throw HookUnavailable, rn).

Definition truthy (v : value) : bool :=
  match v with
  | VUndefined | VNull => false
  | VBool b => b
  | VNum n => negb (Z.eqb n 0)
  | VStr s => negb (String.eqb s "")
  | VBuffer _ | VUint8Array _ | VRef _ => true
  end.

(** [content || {}]: the empty object is a new heap cell. *)
Definition orEmptyObject (h : heap) (content : value) : heap * value :=
  if truthy content then (h, content)
  else let r := fresh (dom h) in (<[ r := CObject [] ]> h, VRef r).

Definition setTestDir (dir : string) (tf : TestFixtures) : TestFixtures :=
  {| testDir := Some dir; testFinished := testFinished tf;
     createdTestDir := createdTestDir tf; keepFixture := keepFixture tf |}.

Definition setCreatedTestDir (b : bool) (tf : TestFixtures) : TestFixtures :=
  {| testDir := testDir tf; testFinished := testFinished tf;
     createdTestDir := b; keepFixture := keepFixture tf |}.

Definition setTestFinished (b : bool) (tf : TestFixtures) : TestFixtures :=
  {| testDir := testDir tf; testFinished := b;
     createdTestDir := createdTestDir tf; keepFixture := keepFixture tf |}.

(** The state of the synchronous wrapper: its instance, the runner and the
    process state of [fixture.ts]. *)
Record harness (FS : Type) := Harness {
  instance : TestFixtures;
  runner : Runner;
  process : world FS;
}.
Arguments Harness {FS}.
Arguments instance {FS}.
Arguments runner {FS}.
Arguments process {FS}.

Module TestFixturesSync.
Section TestFixturesSync.
Context `{Platform} {FS : Type} `{FileSystem FS}.

Definition HM (A : Type) : Type := harness FS → result A * harness FS.

Definition hret {A} (a : A) : HM A := fun s => (Ok a, s).
Definition hbind {A B} (m : HM A) (k : A → HM B) : HM B :=
  fun s => match m s with
           | (Ok a, s') => k a s'
           | (Throw e, s') => (Throw e, s')
           | (Diverge, s') => (Diverge, s')
           end.
Definition htry {A} (m : HM A) (handler : error → HM A) : HM A :=
  fun s => match m s with
           | (Throw e, s') => handler e s'
           | r => r
           end.
Definition inProcess {A} (m : M FS A) : HM A :=
  fun s => let '(r, w) := m (process s) in
           (r, Harness (instance s) (runner s) w).
Definition onInstance (f : TestFixtures → TestFixtures) : HM unit :=
  fun s => (Ok tt, Harness (f (instance s)) (runner s) (process s)).
Definition hook (f : Runner → result unit * Runner) : HM unit :=
  fun s => let '(r, rn) := f (runner s) in
           (r, Harness (instance s) rn (process s)).

(** [#handleTestEnd] *)
Definition handleTestEnd : HM unit :=
  fun s =>
    if negb (testFinished (instance s)) then
      let s' := Harness (setTestFinished true (instance s)) (runner s) (process s) in
      match keepFixture (instance s), testDir (instance s) with
      | false, Some dir =>
          if String.eqb dir "" then (Ok tt, s')
          else hbind (inProcess (Sync.callOrThrow (RmRecursive dir)))
                     (fun _ => hret tt) s'
      | _, _ => (Ok tt, s')
      end
    else (Ok tt, s).

(** [TestFixtures.createTestDir] *)
Definition createTestDir (fuel : nat) (h : heap) (content : value) : HM string :=
  htry
    (hbind (inProcess (Sync.callOrThrow (Mkdtemp (join tmpdir "vitest_"))))
       (fun dir =>
     hbind (onInstance (setTestDir dir)) (fun _ =>
     let '(h', content') := orEmptyObject h content in
     hbind (inProcess (Fixture.make fuel h' dir content' None)) (fun _ =>
     hbind (onInstance (setCreatedTestDir true)) (fun _ =>
(* Register cleanup hooks - wrapped in try-catch *)
hbind (htry (hbind (hook onTestFailed) (fun _ => hook onTestFinished))
            (fun _ => hret tt)) (fun _ =>
hret dir))))))
(fun err => fun s => (Throw (CreateTestDirFailed err), s)).
End TestFixturesSync.
End TestFixturesSync.

(** The state of the asynchronous wrapper. *)
Record aharness := AHarness {
  ainstance : TestFixtures;
  arunner : Runner;
  aallowed : list string;
}.

Module TestFixturesAsync.
Section TestFixturesAsync.
Context `{Platform}.
Import Async.
Local Open Scope async_scope.

Definition onInstance (f : TestFixtures → TestFixtures) : AM aharness unit :=
  modify (fun s => AHarness (f (ainstance s)) (arunner s) (aallowed s)).

Definition hook (f : Runner → result unit * Runner) : AM aharness unit :=
  fun s => let '(r, rn) := f (arunner s) in
           Finished (r, AHarness (ainstance s) rn (aallowed s)).

Definition inModule {A} (m : AM (list string) A) : AM aharness A :=
  zoom aallowed (fun a s => AHarness (ainstance s) (arunner s) a) m.

(** [TestFixturesAsync.createTestDir] *)
Definition createTestDir (fuel : nat) (h : heap) (content : value)
  : AM aharness string :=
  tryCatch
    ((* Reset state for each test directory creation *)
     do _ <- onInstance (setTestFinished false);
     do _ <- onInstance (setCreatedTestDir false);
     do dir <- awaitOrThrow (Mkdtemp (join tmpdir "vitest_"));
     do _ <- onInstance (setTestDir dir);
     let '(h', content') := orEmptyObject h content in
     do _ <- inModule (FixtureAsync.make fuel h' dir content' None);
     do _ <- onInstance (setCreatedTestDir true);
(* Register cleanup hooks *)
do _ <- hook onTestFailed;
do _ <- hook onTestFinished;
ret dir)
(fun err => throw (CreateTestDirFailed err)).
End TestFixturesAsync.
End TestFixturesAsync.

(** ** A POSIX instance of the path interface

    The functions follow the algorithms of Node's [path.posix]. *)

Module Posix.
Definition slash : ascii := "/"%char.

Definition isAbsolute (p : string) : bool :=
  match p with String c _ => Ascii.eqb c slash | EmptyString => false end.

Fixpoint endsWithSlash (p : string) : bool :=
  match p with
  | EmptyString => false
  | String c EmptyString => Ascii.eqb c slash
  | String _ rest => endsWithSlash rest
  end.

(** The segments between slashes; [cur] is the segment being read. *)
Fixpoint segments (p : string) (cur : string) : list string :=
  match p with
  | EmptyString => [cur]
  | String c rest =>
      if Ascii.eqb c slash then cur :: segments rest ""
      else segments rest (cur ++ String c "")
  end.

(** [normalizeString]: [res] is the stack of kept segments, last first. *)
Fixpoint normalizeSegments (allowAboveRoot : bool) (segs res : list string)
  : list string :=
  match segs with
  | [] => rev res
  | seg :: rest =>
      if String.eqb seg "" || String.eqb seg "." then
        normalizeSegments allowAboveRoot rest res
      else if String.eqb seg ".." then
        match res with
        | last :: res' =>
            if String.eqb last ".." then
              normalizeSegments allowAboveRoot rest
                (if allowAboveRoot then ".." :: res else res)
            else normalizeSegments allowAboveRoot rest res'
        | [] =>
            normalizeSegments allowAboveRoot rest
              (if allowAboveRoot then [".."] else [])
        end
      else normalizeSegments allowAboveRoot rest (seg :: res)
  end.

Fixpoint joinSegments (segs : list string) : string :=
  match segs with
  | [] => ""
  | [seg] => seg
  | seg :: rest => seg ++ "/" ++ joinSegments rest
  end.

Definition normalizeString (p : string) (allowAboveRoot : bool) : string :=
  joinSegments (normalizeSegments allowAboveRoot (segments p "") []).

Definition normalize (p : string) : string :=
  if String.eqb p "" then "."
  else
    let isAbs := isAbsolute p in
    let trailingSeparator := endsWithSlash p in
    let path := normalizeString p (negb isAbs) in
    if String.eqb path "" then
      if isAbs then "/" else if trailingSeparator then "./" else "."
    else
      let path := if trailingSeparator then path ++ "/" else path in
      if isAbs then "/" ++ path else path.

(** The backwards scan of [dirname]: [rcs] holds the characters at the
    indices [i], [i-1], ..., [1]. *)
Fixpoint scanEnd (rcs : list ascii) (i : nat) (matchedSlash : bool)
  : option nat :=
  match rcs with
  | [] => None
  | c :: rest =>
      if Ascii.eqb c slash then
        if matchedSlash then scanEnd rest (pred i) true else Some i
      else scanEnd rest (pred i) false
  end.

Definition dirname (p : string) : string :=
  match p with
  | EmptyString => "."
  | String c0 tl =>
      let hasRoot := Ascii.eqb c0 slash in
      match scanEnd (rev (list_ascii_of_string tl)) (String.length tl) true with
      | None => if hasRoot then "/" else "."
      | Some e =>
          if hasRoot && Nat.eqb e 1 then "//" else substring 0 e p
      end
  end.

Definition join (a b : string) : string :=
  let joined :=
    if String.eqb a "" then b
    else if String.eqb b "" then a
    else a ++ "/" ++ b in
  if String.eqb joined "" then "." else normalize joined.

Definition prepend (p resolved : string) : string :=
  if String.eqb p "" then resolved else p ++ "/" ++ resolved.

Definition resolve (cwd a b : string) : string :=
  let r1 := prepend b "" in
  let '(resolvedPath, resolvedAbsolute) :=
    if isAbsolute b then (r1, true)
    else if isAbsolute a then (prepend a r1, true)
    else (prepend cwd (prepend a r1), isAbsolute cwd) in
  let resolvedPath := normalizeString resolvedPath (negb resolvedAbsolute) in
  if resolvedAbsolute then "/" ++ resolvedPath
  else if String.eqb resolvedPath "" then "." else resolvedPath.

End Posix.

(** ** A small in-memory disk *)

Module MemFS.
Inductive node :=
| NDir
| NFile (d : data)
| NSymlink (target : string) (type : symlinkType).

Record t := Disk { nodes : gmap string node; temps : nat }.

Definition isDir (d : t) (p : string) : bool :=
  match nodes d !! p with Some NDir => true | _ => false end.

Definition put (p : string) (n : node) (d : t) : t :=
  Disk (<[ p := n ]> (nodes d)) (temps d).

Definition inside (root p : string) : bool :=
  String.eqb p root || String.prefix (root ++ "/") p.

Definition exec (c : FsCall) (d : t) : fs_result (reply c) * t :=
  match c as c0 return fs_result (reply c0) * t with
  | Mkdirp p =>
      match nodes d !! p with
      | Some NDir => (FsOk tt, d)
      | Some _ => (FsFail "EEXIST", d)
      | None => (FsOk tt, put p NDir d)
      end
  | WriteFile p x =>
      match nodes d !! p with
      | Some NDir => (FsFail "EISDIR", d)
      | _ =>
          if isDir d (Posix.dirname p) then (FsOk tt, put p (NFile x) d)
          else (FsFail "ENOENT", d)
      end
  | Link existingPath newPath =>
      match nodes d !! existingPath, nodes d !! newPath with
      | None, _ => (FsFail "ENOENT", d)
      | Some _, Some _ => (FsFail "EEXIST", d)
      | Some NDir, None => (FsFail "EPERM", d)
      | Some n, None =>
          if isDir d (Posix.dirname newPath) then (FsOk tt, put newPath n d)
          else (FsFail "ENOENT", d)
      end
  | Symlink target p type =>
      match nodes d !! p with
      | Some _ => (FsFail "EEXIST", d)
      | None =>
          if isDir d (Posix.dirname p)
          then (FsOk tt, put p (NSymlink target type) d)
          else (FsFail "ENOENT", d)
      end
  | Stat p =>
      match nodes d !! p with
      | Some NDir => (FsOk true, d)
      | Some (NFile _) => (FsOk false, d)
      | Some (NSymlink target _) =>
          match nodes d !! target with
          | Some NDir => (FsOk true, d)
          | Some (NFile _) => (FsOk false, d)
          | _ => (FsFail "ENOENT", d)
          end
      | None => (FsFail "ENOENT", d)
      end
  | Mkdtemp pre =>
      let p := pre ++ pretty (temps d) in
      if isDir d (Posix.dirname p)
      then (FsOk p, Disk (<[ p := NDir ]> (nodes d)) (S (temps d)))
      else (FsFail "ENOENT", d)
  | RmRecursive p =>
      (FsOk tt, Disk (filter (fun kv => negb (inside p kv.1)) (nodes d)) (temps d))
  end.

#[global] Instance fileSystem : FileSystem t := {| fs_exec := exec |}.

(** A disk holding the working directory and the temp directory. *)
Definition initial : t :=
  Disk (<[ "/work" := NDir ]> (<[ "/tmp" := NDir ]> ∅)) 0.
End MemFS.

Definition posixPlatform (workdir tempdir : string) : Platform :=
  {| cwd := workdir;
     tmpdir := tempdir;
     normalize := Posix.normalize;
     dirname := Posix.dirname;
     join := Posix.join;
     resolve := Posix.resolve workdir |}.

Definition posix : Platform := posixPlatform "/work" "/tmp".

(** ** The rest of the wrappers: accessors and the end of a test *)

(** [set keepFixture(keep)] *)
Definition setKeepFixture (keep : bool) (tf : TestFixtures) : TestFixtures :=
  {| testDir := testDir tf; testFinished := testFinished tf;
     createdTestDir := createdTestDir tf; keepFixture := keep |}.

Module TestFixturesAsyncEnd.
Section TestFixturesAsyncEnd.
Context {FS : Type} `{FileSystem FS}.

(** [#handleTestEnd] of [TestFixturesAsync]: a synchronous method, it
    calls [fs.rmSync] directly on the disk. *)
Definition handleTestEnd (s : aharness) (d : FS) (tr : list event)
  : result unit * aharness * FS * list event :=
  if negb (testFinished (ainstance s)) then
    let s' := AHarness (setTestFinished true (ainstance s)) (arunner s)
                (aallowed s) in
    match keepFixture (ainstance s), testDir (ainstance s) with
    | false, Some dir =>
        if String.eqb dir "" then (Ok tt, s', d, tr)
        else
          let '(r, d') := fs_exec (RmRecursive dir) d in
          (match r return result unit with
           | FsOk _ => Ok tt
           | FsFail code => Throw (FsError code)
           end,
           s', d',
           (tr ++ [Ev (RmRecursive dir) (summarize (RmRecursive dir) r)])%list)
    | _, _ => (Ok tt, s', d, tr)
    end
  else (Ok tt, s, d, tr).
End TestFixturesAsyncEnd.
End TestFixturesAsyncEnd.

(** * Properties *)

Local Open Scope nat_scope.
Local Open Scope list_scope.

(** ** Validation of directory contents *)

(** The entries of the object at [r]. *)
Definition entriesOf (h : heap) (r : ref) : list (string * value) :=
  match objectEntries h (VRef r) with Ok es => es | _ => [] end.

(** [raw_path h r names r']: following the entry names [names] from the
    mapping at [r], through raw (untagged) mappings only, leads to the
    mapping at [r']. *)
Inductive raw_path (h : heap) : ref → list string → ref → Prop :=
| raw_here r : raw_path h r [] r
| raw_step r name r' p r'' :
    (name, VRef r') ∈ entriesOf h r →
    instanceofFixture h (VRef r') = false →
    raw_path h r' p r'' →
    raw_path h r (name :: p) r''.


Section Validation.
Variable h : heap.

Lemma objectEntries_ref r : objectEntries h (VRef r) = Ok (entriesOf h r).
Proof.
  unfold entriesOf. simpl. destruct (h !! r) as [[]|]; reflexivity.
Qed.

Lemma rawToType_raw_ref r :
  instanceofFixture h (VRef r) = false → rawToType h (VRef r) = Ok "dir".
Proof.
  unfold rawToType. simpl. destruct (h !! r) as [[]|]; simpl; congruence.
Qed.

Lemma rawToType_fixture_ref r :
  instanceofFixture h (VRef r) = true →
  ∃ t, rawToType h (VRef r) = Ok t.
Proof.
  unfold rawToType. simpl. destruct (h !! r) as [[]|]; simpl; try congruence.
  eauto.
Qed.

Lemma validate_null fuel seen seen' :
  validateDirContents fuel h VNull seen ≠ Ok seen'.
Proof. destruct fuel; simpl; congruence. Qed.

(** One turn of the loop, by cases on the entry. *)
Lemma validateEntries_cons_raw rec name r rest seen :
  instanceofFixture h (VRef r) = false →
  validateEntries rec h ((name, VRef r) :: rest) seen =
    if decide (r ∈ seen) then Throw (CycleDetected name)
    else rbind (rec (VRef r) ({[ r ]} ∪ seen))
               (validateEntries rec h rest).
Proof.
  intros Hraw. cbn [validateEntries].
  rewrite (rawToType_raw_ref _ Hraw). cbn [rbind]. rewrite Hraw.
  reflexivity.
Qed.

Lemma validateEntries_cons_fixture rec name r rest seen :
  instanceofFixture h (VRef r) = true →
  validateEntries rec h ((name, VRef r) :: rest) seen =
    validateEntries rec h rest seen.
Proof.
  intros Hfix. cbn [validateEntries].
  destruct (rawToType_fixture_ref _ Hfix) as [t ->].
  cbn [rbind]. rewrite Hfix. cbn [negb]. rewrite andb_false_r. reflexivity.
Qed.

Lemma validateEntries_cons_ref rec name r rest seen :
  validateEntries rec h ((name, VRef r) :: rest) seen =
    if instanceofFixture h (VRef r) then validateEntries rec h rest seen
    else if decide (r ∈ seen) then Throw (CycleDetected name)
    else rbind (rec (VRef r) ({[ r ]} ∪ seen))
               (validateEntries rec h rest).
Proof.
  destruct (instanceofFixture h (VRef r)) eqn:E.
  - by apply validateEntries_cons_fixture.
  - by apply validateEntries_cons_raw.
Qed.

(** The other values: a string or a byte array is a file, [null] is
    taken for a directory, the rest is refused. *)
Lemma validateEntries_cons_leaf rec name v rest seen :
  (∀ r, v ≠ VRef r) →
  validateEntries rec h ((name, v) :: rest) seen =
    match v with
    | VStr _ | VBuffer _ | VUint8Array _ => validateEntries rec h rest seen
    | VNull => rbind (rec VNull seen) (validateEntries rec h rest)
    | _ => Throw (InvalidContent v)
    end.
Proof.
  intros Hv. destruct v; try reflexivity. by destruct (Hv r).
Qed.

Lemma raw_path_nil r t : raw_path h r [] t → t = r.
Proof. by inversion 1. Qed.

Lemma raw_path_cons r name p t :
  raw_path h r (name :: p) t →
  ∃ r', (name, VRef r') ∈ entriesOf h r ∧
        instanceofFixture h (VRef r') = false ∧ raw_path h r' p t.
Proof. inversion 1; subst; eauto. Qed.

(** What a successful traversal from [c] establishes: the mappings
    below [c] are new, all end up in [seen'], and no two routes lead to
    the same mapping. *)
Definition fresh_tree (c : ref) (seen seen' : gset ref) : Prop :=
  seen ⊆ seen' ∧
  (∀ p t, p ≠ [] → raw_path h c p t → t ∈ seen' ∧ t ∉ seen) ∧
  (∀ p q t, p ≠ [] → q ≠ [] → raw_path h c p t → raw_path h c q t → p = q).

Definition fresh_forest (es : list (string * value)) (seen seen' : gset ref)
  : Prop :=
  seen ⊆ seen' ∧
  (∀ name r p t, (name, VRef r) ∈ es → instanceofFixture h (VRef r) = false →
     raw_path h r p t → t ∈ seen' ∧ t ∉ seen) ∧
  (∀ n1 r1 p1 n2 r2 p2 t,
     (n1, VRef r1) ∈ es → instanceofFixture h (VRef r1) = false →
     raw_path h r1 p1 t →
     (n2, VRef r2) ∈ es → instanceofFixture h (VRef r2) = false →
     raw_path h r2 p2 t →
     n1 :: p1 = n2 :: p2).

Lemma fresh_forest_tree c seen seen' :
  fresh_forest (entriesOf h c) seen seen' → fresh_tree c seen seen'.
Proof.
  intros (Hsub & Hnew & Hinj). split; [done|]. split.
  - intros [|name p] t Hp Hpath; [done|].
    apply raw_path_cons in Hpath as (r' & Hin & Hraw & Hpath). eauto.
  - intros [|n1 p1] [|n2 p2] t Hp Hq H1 H2; try done.
    apply raw_path_cons in H1 as (r1 & Hin1 & Hraw1 & H1).
    apply raw_path_cons in H2 as (r2 & Hin2 & Hraw2 & H2). eauto.
Qed.

Section Loop.
Variable rec : value → gset ref → result (gset ref).
Hypothesis rec_ok : ∀ c seen seen',
  rec (VRef c) seen = Ok seen' → fresh_tree c seen seen'.
Hypothesis rec_null : ∀ seen seen', rec VNull seen ≠ Ok seen'.

Lemma validateEntries_ok es : ∀ seen seen',
  validateEntries rec h es seen = Ok seen' → fresh_forest es seen seen'.
Proof.
  induction es as [|[name v] rest IH]; intros seen seen' Hrun.
  { simpl in Hrun. injection Hrun as <-. repeat split; [done|..];
      intros; exfalso; eapply not_elem_of_nil; eauto. }
  assert (Hcase : (∃ r, v = VRef r) ∨ ¬ (∃ r, v = VRef r))
    by (destruct v; eauto; right; intros [? ?]; done).
  destruct Hcase as [[r ->]|Hleaf].
  - rewrite validateEntries_cons_ref in Hrun.
    destruct (instanceofFixture h (VRef r)) eqn:Hfix.
    + destruct (IH _ _ Hrun) as (Hsub & Hnew & Hinj).
      assert (Hrest : ∀ n r', (n, VRef r') ∈ (name, VRef r) :: rest →
                instanceofFixture h (VRef r') = false → (n, VRef r') ∈ rest).
      { intros n r' Hin Hraw. apply elem_of_cons in Hin as [Heq|]; [|done].
        injection Heq as -> ->. congruence. }
      split; [done|]. split.
      * intros n r' p t Hin Hraw. eauto.
      * intros n1 r1 p1 n2 r2 p2 t Hin1 Hraw1 H1 Hin2 Hraw2 H2. eauto 10.
    + destruct (decide (r ∈ seen)) as [|Hnotin]; [done|].
      destruct (rec (VRef r) ({[r]} ∪ seen)) as [s1| |] eqn:Hrec; try done.
      simpl in Hrun.
      destruct (rec_ok _ _ _ Hrec) as (A1 & A2 & A3).
      destruct (IH _ _ Hrun) as (B1 & B2 & B3).
      assert (Hhead : ∀ p t, raw_path h r p t → t ∈ s1 ∧ t ∉ seen).
      { intros [|n p] t Hp.
        - apply raw_path_nil in Hp as ->. set_solver.
        - destruct (A2 (n :: p) t) as [? ?]; [done..|]. set_solver. }
      split; [set_solver|]. split.
      * intros n r' p t Hin Hraw Hp.
        apply elem_of_cons in Hin as [Heq|Hin].
        -- injection Heq as -> ->. destruct (Hhead _ _ Hp). set_solver.
        -- destruct (B2 _ _ _ _ Hin Hraw Hp). set_solver.
      * intros n1 r1 p1 n2 r2 p2 t Hin1 Hraw1 H1 Hin2 Hraw2 H2.
        apply elem_of_cons in Hin1 as [Heq1|Hin1];
          apply elem_of_cons in Hin2 as [Heq2|Hin2].
        -- injection Heq1 as -> ->. injection Heq2 as -> ->. f_equal.
           destruct p1 as [|a1 p1], p2 as [|a2 p2]; [done| | |].
           ++ apply raw_path_nil in H1 as ->.
              destruct (A2 (a2 :: p2) r) as [? ?]; [done..|]. set_solver.
           ++ apply raw_path_nil in H2 as ->.
              destruct (A2 (a1 :: p1) r) as [? ?]; [done..|]. set_solver.
           ++ by apply (A3 _ _ t).
        -- injection Heq1 as -> ->. destruct (Hhead _ _ H1).
           destruct (B2 _ _ _ _ Hin2 Hraw2 H2). contradiction.
        -- injection Heq2 as -> ->. destruct (Hhead _ _ H2).
           destruct (B2 _ _ _ _ Hin1 Hraw1 H1). contradiction.
        -- eauto.
  - rewrite validateEntries_cons_leaf in Hrun by naive_solver.
    assert (Hrest : ∀ n r', (n, VRef r') ∈ (name, v) :: rest →
              (n, VRef r') ∈ rest).
    { intros n r' Hin. apply elem_of_cons in Hin as [Heq|]; [|done].
      injection Heq as ? ?; subst. destruct Hleaf. eauto. }
    assert (Hgo : validateEntries rec h rest seen = Ok seen').
    { destruct v; try done; try (destruct Hleaf; eauto; fail).
      destruct (rec VNull seen) eqn:E; try done. by apply rec_null in E. }
    destruct (IH _ _ Hgo) as (Hsub & Hnew & Hinj).
    split; [done|]. split.
    * intros n r' p t Hin Hraw. eauto.
    * intros n1 r1 p1 n2 r2 p2 t Hin1 Hraw1 H1 Hin2 Hraw2 H2. eauto 10.
Qed.
End Loop.

Lemma validateDirContents_ok fuel : ∀ c seen seen',
  validateDirContents fuel h (VRef c) seen = Ok seen' → fresh_tree c seen seen'.
Proof.
  induction fuel as [|fuel IH]; intros c seen seen' Hrun; [done|].
  cbn [validateDirContents] in Hrun. rewrite objectEntries_ref in Hrun.
  cbn [rbind] in Hrun. apply fresh_forest_tree.
  eapply validateEntries_ok; [exact IH| |exact Hrun].
  intros. apply validate_null.
Qed.

(** *** Validation never runs out of fuel *)

Lemma validate_dangling fuel r seen :
  h !! r = None →
  validateDirContents (S fuel) h (VRef r) seen = Ok seen.
Proof. intros Hr. simpl. by rewrite Hr. Qed.

Lemma size_seen_add r (seen : gset ref) :
  r ∈ dom h → r ∉ seen →
  size (dom h ∖ ({[r]} ∪ seen)) < size (dom h ∖ seen).
Proof. intros Hin Hnot. apply subset_size. set_solver. Qed.

Lemma size_seen_mono (seen seen' : gset ref) :
  seen ⊆ seen' → size (dom h ∖ seen') ≤ size (dom h ∖ seen).
Proof. intros Hsub. apply subseteq_size. set_solver. Qed.

Lemma validateDirContents_total fuel : ∀ c seen,
  size (dom h ∖ seen) + 2 ≤ fuel →
  validateDirContents fuel h c seen ≠ Diverge.
Proof.
  induction fuel as [|fuel IH]; intros c seen Hfuel; [lia|].
  cbn [validateDirContents].
  destruct (objectEntries h c) as [es| |] eqn:Hes; [|done|].
  2:{ destruct c; simpl in Hes; try done. by destruct (h !! r) as [[]|]. }
  cbn [rbind]. clear Hes c. revert seen Hfuel.
  induction es as [|[name v] rest IHes]; intros seen Hfuel; [done|].
  assert (Hcase : (∃ r, v = VRef r) ∨ ¬ (∃ r, v = VRef r))
    by (destruct v; eauto; right; intros [? ?]; done).
  destruct Hcase as [[r ->]|Hleaf].
  - rewrite validateEntries_cons_ref.
    destruct (instanceofFixture h (VRef r)); [by apply IHes|].
    destruct (decide (r ∈ seen)) as [|Hnotin]; [done|].
    destruct (h !! r) as [cl|] eqn:Hr.
    + assert (Hdom : r ∈ dom h) by (apply elem_of_dom; eauto).
      pose proof (size_seen_add r seen Hdom Hnotin).
      destruct (validateDirContents fuel h (VRef r) ({[r]} ∪ seen))
        as [s1| |] eqn:Hrec; [|done|].
      * cbn [rbind]. apply IHes.
        apply validateDirContents_ok in Hrec as (Hsub & _).
        assert (Hmono : seen ⊆ s1) by set_solver.
        pose proof (size_seen_mono seen s1 Hmono). lia.
      * exfalso. eapply IH; [|exact Hrec]. lia.
    + destruct fuel as [|fuel]; [lia|].
      rewrite validate_dangling by done. cbn [rbind]. apply IHes.
      assert (Hmono : seen ⊆ {[r]} ∪ seen) by set_solver.
      pose proof (size_seen_mono seen _ Hmono). lia.
  - rewrite validateEntries_cons_leaf by naive_solver.
    destruct v; try done; try (by apply IHes).
    destruct fuel as [|fuel]; [lia|]. done.
Qed.

Lemma validationFuel_enough (seen : gset ref) :
  size (dom h ∖ seen) + 2 ≤ validationFuel h.
Proof.
  unfold validationFuel. rewrite <- size_dom.
  assert (size (dom h ∖ seen) ≤ size (dom h)); [|lia].
  apply subseteq_size. set_solver.
Qed.

(** *** With valid leaves, the only failure is a detected cycle *)




End Validation.

(** Constructing a node never runs out of fuel. *)
Lemma assertValidContent_total h type content :
  assertValidContent h type content ≠ Diverge.
Proof.
  unfold assertValidContent.
  destruct (String.eqb type "dir").
  - destruct (negb (is_object content)); [done|].
    pose proof (validateDirContents_total h (validationFuel h) content
                  (identity content) (validationFuel_enough h _)) as Hv.
    by destruct (validateDirContents _ _ _ _).
  - destruct (String.eqb type "file").
    + by destruct (_ && _).
    + destruct (_ || _); [|done]. by destruct (negb _).
Qed.





(** The test suite's cyclic mapping [d = { a: { d: d } }]. *)
Definition cyclicTestHeap : heap :=
  <[ 0 := CObject [("a", VRef 1)] ]> {[ 1 := CObject [("d", VRef 0)] ]}.




(** ** Classification of raw values *)

(** What [rawToType] answers, by the shape of the value. *)
Lemma rawToType_spec h v :
  rawToType h v =
    match fixtureType h v with
    | Some t => Ok t
    | None =>
        match typeof v with
        | TyString => Ok "file"
        | TyObject => if is_bytes v then Ok "file" else Ok "dir"
        | _ => Throw (InvalidContent v)
        end
    end.
Proof.
  unfold rawToType. destruct (fixtureType h v); [done|]. by destruct v.
Qed.

(** A leaf that is neither a string nor of type object is refused, and
    the error names it. *)
Lemma rawToType_invalid_leaf h v :
  typeof v ≠ TyString → typeof v ≠ TyObject →
  rawToType h v = Throw (InvalidContent v) ∧
  kind_of (InvalidContent v) = InvalidContentError.
Proof.
  intros Hs Ho. rewrite rawToType_spec. by destruct v.
Qed.

(** Such a leaf makes the validation of the mapping that holds it fail
    with that error, when the entries before it are files. *)
Lemma validateEntries_invalid_leaf rec h files name v rest seen :
  typeof v ≠ TyString → typeof v ≠ TyObject →
  Forall (fun e => is_string e.2 = true ∨ is_bytes e.2 = true) files →
  validateEntries rec h (files ++ (name, v) :: rest) seen =
    Throw (InvalidContent v).
Proof.
  intros Hs Ho Hfiles. induction Hfiles as [|[n f] files Hf _ IH].
  - simpl. destruct (rawToType_invalid_leaf h v Hs Ho) as [-> _]. done.
  - rewrite <- app_comm_cons. rewrite validateEntries_cons_leaf.
    + destruct f; simpl in Hf; try done; naive_solver.
    + intros r ->. simpl in Hf. naive_solver.
Qed.

(** The mapping [{ a: null }] and, for comparison, [{ a: 1 }]. *)
Definition nullLeaf : heap := {[ 0 := CObject [("a", VNull)] ]}.
Definition numberLeaf : heap := {[ 0 := CObject [("a", VNum 1)] ]}.

(** C5.  A number leaf is refused with [InvalidContent], as specified,
    but [null] is classified as a directory ([typeof null] is
    ['object']) and the construction then fails inside [Object.entries]
    with a [TypeError] that does not name the value. *)
Theorem C5_null_leaf_taken_for_directory :
  newFixture numberLeaf "dir" (VRef 0) = Throw (InvalidContent (VNum 1)) ∧
  rawToType nullLeaf VNull = Ok "dir" ∧
  newFixture nullLeaf "dir" (VRef 0) =
    Throw (JsTypeError "Cannot convert undefined or null to object") ∧
  kind_of (JsTypeError "Cannot convert undefined or null to object")
    = OtherError.
Proof. cbv zeta; repeat apply conj; vm_compute; reflexivity. Qed.

(** ** The containment check *)

Section Containment.
Context `{Platform} {FS : Type} `{FileSystem FS}.
Import Sync Fixture.

Lemma set_has_true x s : set_has x s = true ↔ x ∈ s.
Proof. unfold set_has. apply bool_decide_eq_true. Qed.

Lemma set_has_false x s : set_has x s = false ↔ x ∉ s.
Proof. unfold set_has. apply bool_decide_eq_false. Qed.

Lemma elem_of_set_add x y s : x ∈ set_add y s ↔ x = y ∨ x ∈ s.
Proof.
  unfold set_add. destruct (set_has y s) eqn:E.
  - apply set_has_true in E. split; [by right|]. by intros [->|].
  - rewrite elem_of_app, list_elem_of_singleton. tauto.
Qed.

Lemma checkIfPathIsAllowed_eq (newPath : string) (w : world FS) :
  checkIfPathIsAllowed newPath w =
    if decide (dirname newPath ∈ allowedPaths w) then (Ok true, w)
    else (Throw (IllegalPath (dirname newPath) (allowedPaths w)), w).
Proof.
  unfold checkIfPathIsAllowed. destruct (set_has _ _) eqn:E.
  - apply set_has_true in E. by rewrite decide_True.
  - apply set_has_false in E. by rewrite decide_False.
Qed.

Lemma checkIfPathIsAllowed_allowed newPath (w : world FS) :
  dirname newPath ∈ allowedPaths w →
  checkIfPathIsAllowed newPath w = (Ok true, w).
Proof. intros Hin. rewrite checkIfPathIsAllowed_eq. by rewrite decide_True. Qed.

End Containment.

(** C3.  The containment check is exact membership of the immediate
    parent: it answers [true] exactly when [dirname p] is an element of
    the allowed set and throws [IllegalPath], naming that parent, in every
    other case, also when the parent lies below an allowed directory or
    merely starts with its name. *)
Theorem C3_containment_is_exact_membership :
  (∀ (P : Platform) (FS : Type) (F : FileSystem FS) (p : string) (w : world FS),
     (Fixture.checkIfPathIsAllowed p w = (Ok true, w) ↔
        dirname p ∈ allowedPaths w) ∧
     (Fixture.checkIfPathIsAllowed p w =
        (Throw (IllegalPath (dirname p) (allowedPaths w)), w) ↔
        dirname p ∉ allowedPaths w) ∧
     kind_of (IllegalPath (dirname p) (allowedPaths w)) = IllegalPathError) ∧
  (let w := World ["/tmp/r"] MemFS.initial [] in
   @Fixture.checkIfPathIsAllowed posix _ "/tmp/r/f" w = (Ok true, w) ∧
   @Fixture.checkIfPathIsAllowed posix _ "/tmp/r/a/b" w =
     (Throw (IllegalPath "/tmp/r/a" ["/tmp/r"]), w) ∧
   @Fixture.checkIfPathIsAllowed posix _ "/tmp/rx/f" w =
     (Throw (IllegalPath "/tmp/rx" ["/tmp/r"]), w) ∧
   @Fixture.checkIfPathIsAllowed posix _ "/tmp/f" w =
     (Throw (IllegalPath "/tmp" ["/tmp/r"]), w)).
Proof.
  split.
  - intros P FS F p w. rewrite checkIfPathIsAllowed_eq.
    destruct (decide (dirname p ∈ allowedPaths w)); repeat split; try done.
    all: intros; try congruence; try contradiction.
  - cbv zeta; repeat apply conj; vm_compute; reflexivity.
Qed.

(** ** The walk over a fixture tree *)

(** The paths a filesystem call creates or refers to. *)
Definition paths_of (e : event) : list string :=
  match ev_call e with
  | Mkdirp p | WriteFile p _ | Stat p => [p]
  | Link existingPath newPath => [existingPath; newPath]
  | Symlink target p _ => [target; p]
  | Mkdtemp _ | RmRecursive _ => []
  end.

(** The calls made while walking the tree, and those of the final loop. *)
Definition walk_event (e : event) : Prop :=
  match ev_call e with
  | Mkdirp _ | WriteFile _ _ | Link _ _ => True
  | _ => False
  end.

Definition flush_event (e : event) : Prop :=
  match ev_call e with
  | Stat _ | Symlink _ _ _ => True
  | _ => False
  end.

Section Walk.
Context `{Platform} {FS : Type} `{FileSystem FS}.
Import Sync Fixture.

(** [descends root p]: [p] is [root] or lies below it. *)
Definition descends (root p : string) : Prop :=
  ∃ k, Nat.iter k dirname p = root.

(** [strictly_inside root p]: the parent of [p] is [root] or lies below it. *)
Definition strictly_inside (root p : string) : Prop :=
  descends root (dirname p).

(** [grows s s']: [s'] is [s] after adding, one at a time, paths whose
    parent is in the set at that moment. *)
Inductive grows : list string → list string → Prop :=
| grows_refl s : grows s s
| grows_step s a s' : dirname a ∈ s → grows (set_add a s) s' → grows s s'.

(** Every path of the call has its parent in [A]. *)
Definition contained (A : list string) (e : event) : Prop :=
  ∀ q, q ∈ paths_of e → dirname q ∈ A.

(** What a part of the walk does to the process state. *)
Definition walked (w w' : world FS) : Prop :=
  grows (allowedPaths w) (allowedPaths w') ∧
  ∃ evs, trace w' = trace w ++ evs ∧
         Forall walk_event evs ∧
         Forall (contained (allowedPaths w')) evs ∧
         ∀ a, a ∈ allowedPaths w' →
              a ∈ allowedPaths w ∨ Ev (Mkdirp a) Done ∈ evs.

(** What the final loop does to it. *)
Definition flushed (w w' : world FS) : Prop :=
  allowedPaths w' = allowedPaths w ∧
  ∃ evs, trace w' = trace w ++ evs ∧
         Forall flush_event evs ∧
         Forall (contained (allowedPaths w)) evs.

Lemma grows_trans s1 s2 s3 : grows s1 s2 → grows s2 s3 → grows s1 s3.
Proof. induction 1; [done|]. intros. eapply grows_step; eauto. Qed.

Lemma grows_subseteq s s' : grows s s' → s ⊆ s'.
Proof.
  induction 1 as [|s a s' Ha _ IH]; [done|].
  intros x Hx. apply IH, elem_of_set_add. by right.
Qed.

Lemma grows_add a s : dirname a ∈ s → grows s (set_add a s).
Proof. intros. eapply grows_step; [done|constructor]. Qed.

Lemma descends_child root a : descends root (dirname a) → descends root a.
Proof. intros [k Hk]. exists (S k). by rewrite Nat.iter_succ_r. Qed.

Lemma grows_descends root s s' :
  grows s s' → (∀ a, a ∈ s → descends root a) → ∀ a, a ∈ s' → descends root a.
Proof.
  induction 1 as [|s a s' Ha _ IH]; [done|]. intros Hs. apply IH.
  intros b [->|Hb]%elem_of_set_add; [|by apply Hs].
  by apply descends_child, Hs.
Qed.

Lemma contained_mono A A' e : A ⊆ A' → contained A e → contained A' e.
Proof. intros Hsub Hc q Hq. apply Hsub, Hc, Hq. Qed.

Lemma walked_refl w : walked w w.
Proof.
  split; [constructor|]. exists []. rewrite app_nil_r.
  repeat split; try done. by left.
Qed.

Lemma walked_trans w1 w2 w3 : walked w1 w2 → walked w2 w3 → walked w1 w3.
Proof.
  intros (Hg1 & evs1 & Ht1 & Hw1 & Hc1 & Hm1) (Hg2 & evs2 & Ht2 & Hw2 & Hc2 & Hm2).
  split; [by eapply grows_trans|]. exists (evs1 ++ evs2).
  rewrite Ht2, Ht1, app_assoc. repeat split; try done.
  - by apply Forall_app.
  - apply Forall_app. split; [|done].
    eapply Forall_impl; [exact Hc1|]. intros e. apply contained_mono.
    by apply grows_subseteq.
  - intros a Ha. destruct (Hm2 a Ha) as [Ha2|Ha2].
    + destruct (Hm1 a Ha2); [by left|]. right. apply elem_of_app. by left.
    + right. apply elem_of_app. by right.
Qed.

Lemma flushed_refl w : flushed w w.
Proof. split; [done|]. exists []. by rewrite app_nil_r. Qed.

Lemma flushed_trans w1 w2 w3 : flushed w1 w2 → flushed w2 w3 → flushed w1 w3.
Proof.
  intros (Ha1 & evs1 & Ht1 & Hf1 & Hc1) (Ha2 & evs2 & Ht2 & Hf2 & Hc2).
  split; [congruence|]. exists (evs1 ++ evs2).
  rewrite Ht2, Ht1, app_assoc. repeat split; try done.
  - by apply Forall_app.
  - apply Forall_app. split; [done|]. by rewrite <- Ha1.
Qed.

(** Sequencing preserves any transitive relation between the state before
    and the state after. *)
Lemma bind_post (R : world FS → world FS → Prop) {A B} (m : M FS A)
    (k : A → M FS B) w :
  (∀ w1 w2 w3, R w1 w2 → R w2 w3 → R w1 w3) →
  R w (m w).2 →
  (∀ a w1, m w = (Ok a, w1) → R w1 (k a w1).2) →
  R w (bind m k w).2.
Proof.
  intros Htrans Hm Hk. unfold bind.
  destruct (m w) as [[a|e|] w1] eqn:Hmw; simpl in *; eauto.
Qed.

Lemma callOrThrow_state c (w : world FS) :
  ∃ o, (callOrThrow c w).2 =
         World (allowedPaths w) (fs_exec c (disk w)).2 (trace w ++ [Ev c o]).
Proof.
  unfold callOrThrow, bind, call.
  destruct (fs_exec c (disk w)) as [[a|code] d]; simpl; eauto.
Qed.

Lemma callOrThrow_ok c (w w1 : world FS) a :
  callOrThrow c w = (Ok a, w1) →
  ∃ d, fs_exec c (disk w) = (FsOk a, d) ∧
       w1 = World (allowedPaths w) d (trace w ++ [Ev c (summarize c (FsOk a))]).
Proof.
  unfold callOrThrow, bind, call.
  destruct (fs_exec c (disk w)) as [[a'|code] d]; simpl; [|done].
  intros [= -> <-]. eauto.
Qed.

Lemma callOrThrow_walked c (w : world FS) :
  (∀ o, walk_event (Ev c o)) → (∀ o, contained (allowedPaths w) (Ev c o)) →
  walked w (callOrThrow c w).2.
Proof.
  intros Hw Hc. destruct (callOrThrow_state c w) as [o ->].
  split; [constructor|]. exists [Ev c o]. simpl.
  repeat split; by constructor.
Qed.

Lemma callOrThrow_flushed c (w : world FS) :
  (∀ o, flush_event (Ev c o)) → (∀ o, contained (allowedPaths w) (Ev c o)) →
  flushed w (callOrThrow c w).2.
Proof.
  intros Hw Hc. destruct (callOrThrow_state c w) as [o ->].
  split; [done|]. exists [Ev c o]. simpl. repeat split; by constructor.
Qed.

Lemma check_post (R : world FS → world FS → Prop) {B} p
    (k : bool → M FS B) (w : world FS) :
  R w w →
  (dirname p ∈ allowedPaths w → R w (k true w).2) →
  R w (bind (checkIfPathIsAllowed p) k w).2.
Proof.
  intros Hrefl Hk. unfold bind. rewrite checkIfPathIsAllowed_eq.
  destruct (decide _); simpl; eauto.
Qed.

Lemma bind_ret {A B} (a : A) (k : A → M FS B) w : bind (ret a) k w = k a w.
Proof. reflexivity. Qed.

Lemma bind_setAllowed {B} f (k : unit → M FS B) w :
  bind (setAllowed f) k w =
    k tt (World (f (allowedPaths w)) (disk w) (trace w)).
Proof. reflexivity. Qed.

Lemma bind_lift_ok {A B} (a : A) (k : A → M FS B) w :
  bind (lift (Ok a)) k w = k a w.
Proof. reflexivity. Qed.

Lemma makeEntries_walked rec np entries :
  (∀ p c tbl w, walked w (rec p c (Some tbl) w).2) →
  ∀ tbl w, walked w (makeEntries rec np entries tbl w).2.
Proof.
  intros Hrec. induction entries as [|[name nested] rest IH]; intros tbl w.
  - apply walked_refl.
  - cbn [makeEntries]. apply (bind_post walked); [exact walked_trans|apply Hrec|].
    intros tbl' w1 _. apply IH.
Qed.

(** A nested node: the set grows by directories whose parent was allowed,
    and every call is made on paths whose parent is allowed. *)
Lemma makeNode_walked rec h np t fc tbl w :
  (∀ p c tbl w, walked w (rec p c (Some tbl) w).2) →
  walked w (makeNode rec h false np t fc tbl w).2.
Proof.
  intros Hrec. unfold makeNode.
  destruct (is_dir t); [|destruct (is_file t); [|destruct (is_link t);
    [|destruct (is_symlink t)]]].
  - apply (check_post walked); [apply walked_refl|]. intros Hin. unfold bind at 1.
    destruct (callOrThrow (Mkdirp np) w) as [[[]|e|] w1] eqn:Hcall.
    + apply callOrThrow_ok in Hcall as (d & Hexec & ->).
      cbn [when]. rewrite bind_ret, bind_setAllowed.
      cbn [allowedPaths disk trace summarize].
      eapply walked_trans with
        (w2 := World (set_add np (allowedPaths w)) d
                 (trace w ++ [Ev (Mkdirp np) Done])).
      * split; [by apply grows_add|]. exists [Ev (Mkdirp np) Done].
        repeat split; simpl.
        -- by repeat constructor.
        -- repeat constructor. intros q Hq. apply elem_of_set_add. right.
           apply list_elem_of_singleton in Hq as ->. done.
        -- intros a [->|Ha]%elem_of_set_add; [right|by left].
           by apply list_elem_of_singleton.
      * apply (bind_post walked); [exact walked_trans|apply walked_refl|].
        intros entries w1 [= _ <-]. by apply makeEntries_walked.
    + pose proof (callOrThrow_walked (Mkdirp np) w) as Hw.
      rewrite Hcall in Hw. apply Hw; [done|].
      intros o q Hq. by apply list_elem_of_singleton in Hq as ->.
    + pose proof (callOrThrow_walked (Mkdirp np) w) as Hw.
      rewrite Hcall in Hw. apply Hw; [done|].
      intros o q Hq. by apply list_elem_of_singleton in Hq as ->.
  - apply (check_post walked); [apply walked_refl|]. intros Hin.
    destruct (toData fc) as [d|]; [|apply walked_refl].
    apply (bind_post walked); [exact walked_trans| |intros; apply walked_refl].
    apply callOrThrow_walked; [done|].
    intros o q Hq. by apply list_elem_of_singleton in Hq as ->.
  - destruct fc; try apply walked_refl.
    apply (check_post walked); [apply walked_refl|]. intros Hin1.
    apply (check_post walked); [apply walked_refl|]. intros Hin2.
    apply (bind_post walked); [exact walked_trans| |intros; apply walked_refl].
    apply callOrThrow_walked; [done|].
    intros o q Hq. simpl in Hq.
    apply elem_of_cons in Hq as [->|Hq]; [done|].
    by apply list_elem_of_singleton in Hq as ->.
  - destruct fc; apply walked_refl.
  - apply walked_refl.
Qed.

Lemma make_walked fuel h : ∀ p c tbl w,
  walked w (make fuel h p c (Some tbl) w).2.
Proof.
  induction fuel as [|fuel IH]; intros p c tbl w; [apply walked_refl|].
  cbn [make]. apply (bind_post walked); [exact walked_trans|apply walked_refl|].
  intros [t fc] w1 [= _ <-].
  apply (bind_post walked); [exact walked_trans|apply walked_refl|].
  intros [] w1 [= <-].
  apply (bind_post walked); [exact walked_trans|by apply makeNode_walked|].
  intros tbl' w1 _.
  apply (bind_post walked); [exact walked_trans|apply walked_refl|].
  intros [] w2 [= <-]. apply walked_refl.
Qed.

(** The final loop leaves the set as it is and only makes [stat] and
    [symlink] calls, on paths whose parent is allowed. *)
Lemma createSymlink_flushed symlinkPath target w :
  flushed w (createSymlink symlinkPath target w).2.
Proof.
  unfold createSymlink.
  apply (check_post flushed); [apply flushed_refl|]. intros Hin1.
  apply (check_post flushed); [apply flushed_refl|]. intros Hin2.
  apply (bind_post flushed); [exact flushed_trans| |].
  - unfold getSymLinkTargetType, checkIfPathExists, bind, call.
    destruct (fs_exec (Stat target) (disk w)) as [[b|code] d]; simpl.
    + split; [done|]. eexists [_]. repeat split; simpl; repeat constructor.
      intros q Hq. by apply list_elem_of_singleton in Hq as ->.
    + destruct (String.eqb code "ENOENT"); simpl.
      all: split; [done|]; eexists [_]; repeat split; simpl; repeat constructor.
      all: intros q Hq; by apply list_elem_of_singleton in Hq as ->.
  - intros ty w1 Hty.
    assert (Hsame : allowedPaths w1 = allowedPaths w).
    { revert Hty. unfold getSymLinkTargetType, checkIfPathExists, bind, call.
      destruct (fs_exec (Stat target) (disk w)) as [[b|code] d]; simpl.
      - by intros [= _ <-].
      - by destruct (String.eqb code "ENOENT"). }
    apply (callOrThrow_flushed (Symlink target symlinkPath ty) w1); [done|].
    rewrite Hsame.
    intros o q Hq. simpl in Hq.
    apply elem_of_cons in Hq as [->|Hq]; [done|].
    by apply list_elem_of_singleton in Hq as ->.
Qed.

Lemma flushSymlinks_flushed entries : ∀ w,
  flushed w (flushSymlinks entries w).2.
Proof.
  induction entries as [|[symlinkPath target] rest IH]; intros w.
  - apply flushed_refl.
  - cbn [flushSymlinks]. apply (bind_post flushed); [exact flushed_trans| |].
    + apply createSymlink_flushed.
    + intros [] w1 _. apply IH.
Qed.
End Walk.

(** ** A top-level call *)

Section TopLevel.
Context `{Platform} {FS : Type} `{FileSystem FS}.
Import Sync Fixture.

(** The set right after [resetAllowedPaths]. *)
Definition resetSet : list string := set_add tmpdir (set_add cwd []).

(** The calls of a part of the walk, whatever their paths. *)
Definition walk_only (w w' : world FS) : Prop :=
  ∃ evs, trace w' = trace w ++ evs ∧ Forall walk_event evs.

Lemma walk_only_refl w : walk_only w w.
Proof. exists []. by rewrite app_nil_r. Qed.

Lemma walk_only_trans w1 w2 w3 :
  walk_only w1 w2 → walk_only w2 w3 → walk_only w1 w3.
Proof.
  intros (e1 & H1 & F1) (e2 & H2 & F2). exists (e1 ++ e2).
  rewrite H2, H1, app_assoc. split; [done|]. by apply Forall_app.
Qed.

Lemma walked_walk_only w w' : walked w w' → walk_only w w'.
Proof. intros (_ & evs & Ht & Hw & _). by exists evs. Qed.

Lemma callOrThrow_walk_only c (w : world FS) :
  (∀ o, walk_event (Ev c o)) → walk_only w (callOrThrow c w).2.
Proof.
  intros Hw. destruct (callOrThrow_state c w) as [o ->].
  exists [Ev c o]. split; [done|]. by repeat constructor.
Qed.

(** A top-level call on valid content starts from the reset set. *)
Lemma make_root_eq fuel h p c t fc (w : world FS) :
  rawToFixture h c = Ok (t, fc) →
  make (S fuel) h p c None w =
    bind (makeNode (make fuel h) h true (normalize p) t fc [])
      (fun symlinks => bind (flushSymlinks symlinks) (fun _ => ret symlinks))
      (World resetSet (disk w) (trace w)).
Proof. intros Hfix. cbn [make]. unfold bind at 1, lift. by rewrite Hfix. Qed.

(** On invalid content it throws at once and touches nothing. *)
Lemma make_invalid fuel h p c symlinks e (w : world FS) :
  rawToFixture h c = Throw e →
  make (S fuel) h p c symlinks w = (Throw e, w).
Proof. intros Hfix. cbn [make]. unfold bind at 1, lift. by rewrite Hfix. Qed.

Lemma rawToFixture_total h c : rawToFixture h c ≠ Diverge.
Proof.
  assert (Hraw : ∀ k : string → result (string * value),
            (∀ t, k t ≠ Diverge) → rbind (rawToType h c) k ≠ Diverge).
  { intros k Hk. rewrite rawToType_spec.
    destruct (fixtureType h c); [apply Hk|].
    destruct (typeof c); try done; try apply Hk.
    destruct (is_bytes c); apply Hk. }
  assert (Hk : ∀ t, rbind (assertValidContent h t c)
                      (fun _ => Ok (t, c)) ≠ Diverge).
  { intros t. pose proof (assertValidContent_total h t c).
    by destruct (assertValidContent h t c). }
  unfold rawToFixture.
  destruct (fixtureType h c), (fixtureContent h c); try done.
  all: by apply Hraw.
Qed.

(** The root directory: once it is created the set is exactly its path. *)
Lemma makeNode_root_dir rec h np fc tbl (w : world FS) d1 :
  dirname np ∈ allowedPaths w →
  fs_exec (Mkdirp np) (disk w) = (FsOk tt, d1) →
  makeNode rec h true np "dir" fc tbl w =
    bind (lift (objectEntries h fc))
      (fun entries => makeEntries rec np entries tbl)
      (World [np] d1 (trace w ++ [Ev (Mkdirp np) Done])).
Proof.
  intros Hin Hexec. unfold makeNode. change (is_dir "dir") with true. cbv iota.
  unfold bind at 1. rewrite checkIfPathIsAllowed_allowed by done.
  unfold bind at 1, callOrThrow, bind at 1, call. rewrite Hexec. reflexivity.
Qed.

(** A nested directory: its path is added to the set. *)
Lemma makeNode_nested_dir rec h np fc tbl (w : world FS) d1 :
  dirname np ∈ allowedPaths w →
  fs_exec (Mkdirp np) (disk w) = (FsOk tt, d1) →
  makeNode rec h false np "dir" fc tbl w =
    bind (lift (objectEntries h fc))
      (fun entries => makeEntries rec np entries tbl)
      (World (set_add np (allowedPaths w)) d1
         (trace w ++ [Ev (Mkdirp np) Done])).
Proof.
  intros Hin Hexec. unfold makeNode. change (is_dir "dir") with true. cbv iota.
  unfold bind at 1. rewrite checkIfPathIsAllowed_allowed by done.
  unfold bind at 1, callOrThrow, bind at 1, call. rewrite Hexec. reflexivity.
Qed.

(** The walk below the root and the final loop, from the collapsed set. *)
Lemma make_root_dir fuel h p c fc (w : world FS) d1 :
  rawToFixture h c = Ok ("dir", fc) →
  dirname (normalize p) ∈ resetSet →
  fs_exec (Mkdirp (normalize p)) (disk w) = (FsOk tt, d1) →
  ∃ walk flush,
    trace (make (S fuel) h p c None w).2 =
      trace w ++ Ev (Mkdirp (normalize p)) Done :: walk ++ flush ∧
    Forall walk_event walk ∧ Forall flush_event flush ∧
    Forall (contained (allowedPaths (make (S fuel) h p c None w).2))
      (walk ++ flush) ∧
    grows [normalize p] (allowedPaths (make (S fuel) h p c None w).2) ∧
    (∀ a, a ∈ allowedPaths (make (S fuel) h p c None w).2 →
          a = normalize p ∨ Ev (Mkdirp a) Done ∈ walk).
Proof.
  intros Hfix Hin Hexec.
  destruct (make (S fuel) h p c None w) as [res w'] eqn:Hmake. simpl.
  rewrite (make_root_eq _ _ _ _ _ _ _ Hfix) in Hmake.
  set (w1 := World [normalize p] d1
               (trace w ++ [Ev (Mkdirp (normalize p)) Done])).
  assert (Hwalk : walked w1
            (bind (lift (objectEntries h fc))
               (fun entries => makeEntries (make fuel h) (normalize p) entries [])
               w1).2).
  { apply (bind_post walked); [exact walked_trans|apply walked_refl|].
    intros entries w2 [= _ <-]. apply makeEntries_walked. apply make_walked. }
  unfold bind at 1 in Hmake.
  rewrite (makeNode_root_dir _ _ _ _ _ _ d1) in Hmake by done.
  cbn [trace disk allowedPaths] in Hmake. fold w1 in Hmake.
  destruct (bind (lift (objectEntries h fc)) _ w1) as [r w2] eqn:Hrun.
  simpl in Hwalk. destruct Hwalk as (Hg & walk & Ht & Hw & Hc & Hm).
  assert (Hflush : flushed w2 w').
  { destruct r as [tbl|e|]; try (injection Hmake as _ <-; apply flushed_refl).
    replace w' with ((bind (flushSymlinks tbl) (fun _ => ret tbl) w2).2)
      by (by rewrite Hmake).
    apply (bind_post flushed); [exact flushed_trans| |].
    - apply flushSymlinks_flushed.
    - intros; apply flushed_refl. }
  destruct Hflush as (Ha & flush & Ht3 & Hf & Hc3). exists walk, flush.
  rewrite Ha, Ht3, Ht. subst w1. simpl. rewrite <- !app_assoc. simpl.
  repeat split; try done.
  - by apply Forall_app.
  - intros a Ha'. destruct (Hm a Ha') as [Hroot|]; [|by right].
    left. simpl in Hroot. by apply list_elem_of_singleton in Hroot.
Qed.

(** Every top-level call first walks, then creates symlinks. *)
Lemma makeNode_walk_only rec h isRoot np t fc tbl (w : world FS) :
  (∀ p c tbl w, walk_only w (rec p c (Some tbl) w).2) →
  walk_only w (makeNode rec h isRoot np t fc tbl w).2.
Proof.
  intros Hrec. unfold makeNode.
  destruct (is_dir t); [|destruct (is_file t); [|destruct (is_link t);
    [|destruct (is_symlink t)]]].
  - apply (check_post walk_only); [apply walk_only_refl|]. intros _.
    apply (bind_post walk_only); [exact walk_only_trans| |].
    { by apply callOrThrow_walk_only. }
    intros [] w1 _.
    apply (bind_post walk_only); [exact walk_only_trans| |].
    { destruct isRoot; [|apply walk_only_refl]. exists []. simpl.
      by rewrite app_nil_r. }
    intros [] w2 _.
    apply (bind_post walk_only); [exact walk_only_trans| |].
    { exists []. simpl. by rewrite app_nil_r. }
    intros [] w3 _.
    apply (bind_post walk_only); [exact walk_only_trans|apply walk_only_refl|].
    intros entries w4 _. clear -Hrec. revert tbl w4.
    induction entries as [|[name nested] rest IH]; intros tbl w4.
    + apply walk_only_refl.
    + cbn [makeEntries].
      apply (bind_post walk_only); [exact walk_only_trans|apply Hrec|].
      intros; apply IH.
  - apply (check_post walk_only); [apply walk_only_refl|]. intros _.
    destruct (toData fc) as [d|]; [|apply walk_only_refl].
    apply (bind_post walk_only); [exact walk_only_trans| |].
    + by apply callOrThrow_walk_only.
    + intros; apply walk_only_refl.
  - destruct fc; try apply walk_only_refl.
    apply (check_post walk_only); [apply walk_only_refl|]. intros _.
    apply (check_post walk_only); [apply walk_only_refl|]. intros _.
    apply (bind_post walk_only); [exact walk_only_trans| |].
    + by apply callOrThrow_walk_only.
    + intros; apply walk_only_refl.
  - destruct fc; apply walk_only_refl.
  - apply walk_only_refl.
Qed.

Lemma make_root_split fuel h p c (w : world FS) :
  ∃ walk flush,
    trace (make fuel h p c None w).2 = trace w ++ walk ++ flush ∧
    Forall walk_event walk ∧ Forall flush_event flush.
Proof.
  destruct fuel as [|fuel].
  { exists [], []. by rewrite app_nil_r. }
  destruct (rawToFixture h c) as [[t fc]|e|] eqn:Hfix.
  - destruct (make (S fuel) h p c None w) as [res w'] eqn:Hmake. simpl.
    rewrite (make_root_eq _ _ _ _ _ _ _ Hfix) in Hmake.
    unfold bind at 1 in Hmake.
    pose proof (makeNode_walk_only (make fuel h) h true (normalize p) t fc []
                  (World resetSet (disk w) (trace w))) as Hwalk.
    destruct (makeNode _ _ _ _ _ _ _ _) as [r w2]. simpl in Hwalk.
    destruct Hwalk as (walk & Ht & Hw).
    { intros. apply walked_walk_only, make_walked. }
    assert (Hflush : flushed w2 w').
    { destruct r as [tbl|e|]; try (injection Hmake as _ <-; apply flushed_refl).
      replace w' with ((bind (flushSymlinks tbl) (fun _ => ret tbl) w2).2)
        by (by rewrite Hmake).
      apply (bind_post flushed); [exact flushed_trans| |].
      - apply flushSymlinks_flushed.
      - intros; apply flushed_refl. }
    destruct Hflush as (_ & flush & Ht3 & Hf & _). exists walk, flush.
    rewrite Ht3, Ht. simpl. by rewrite <- app_assoc.
  - rewrite (make_invalid _ _ _ _ _ _ _ Hfix). exists [], [].
    by rewrite app_nil_r.
  - by apply rawToFixture_total in Hfix.
Qed.
End TopLevel.

(** ** Confinement to the root *)

(** The fixture [{ "a.txt": "hello", sub: { "b.txt": "world" } }]. *)
Definition roundTrip : heap :=
  <[ 0 := CObject [("a.txt", VStr "hello"); ("sub", VRef 1)] ]>
  {[ 1 := CObject [("b.txt", VStr "world")] ]}.

(** A fresh process on the in-memory disk. *)
Definition freshWorld : world MemFS.t := World [] MemFS.initial [].

(** A call's paths lie strictly inside [root]. *)
Definition event_inside `{Platform} (root : string) (e : event) : Prop :=
  ∀ q, q ∈ paths_of e → strictly_inside root q.

(** The walk below a created root, and the final loop, only touch paths
    strictly inside the root. *)
Lemma make_root_inside
    (P : Platform) (FS : Type) (F : FileSystem FS)
    (fuel : nat) (h : heap) (p : string) (c fc : value) (w : world FS)
    (d1 : FS) :
  rawToFixture h c = Ok ("dir", fc) →
  dirname (normalize p) ∈ resetSet →
  fs_exec (Mkdirp (normalize p)) (disk w) = (FsOk tt, d1) →
  ∃ evs,
    trace (Fixture.make (S fuel) h p c None w).2 =
      trace w ++ Ev (Mkdirp (normalize p)) Done :: evs ∧
    grows [normalize p] (allowedPaths (Fixture.make (S fuel) h p c None w).2) ∧
    (∀ a, a ∈ allowedPaths (Fixture.make (S fuel) h p c None w).2 →
       descends (normalize p) a ∧
       (a = normalize p ∨ Ev (Mkdirp a) Done ∈ evs)) ∧
    Forall (event_inside (normalize p)) evs.
Proof.
  intros Hfix Hin Hexec.
  destruct (make_root_dir fuel h p c fc w d1 Hfix Hin Hexec)
    as (walk & flush & Ht & Hw & Hf & Hc & Hg & Hm).
  assert (Hdesc : ∀ a, a ∈ allowedPaths (Fixture.make (S fuel) h p c None w).2 →
                       descends (normalize p) a).
  { eapply grows_descends; [exact Hg|].
    intros a ->%list_elem_of_singleton. by exists 0. }
  exists (walk ++ flush). split; [done|]. split; [done|]. split.
  - intros a Ha. split; [by apply Hdesc|].
    destruct (Hm a Ha); [by left|]. right. apply elem_of_app. by left.
  - eapply Forall_impl; [exact Hc|]. intros e He q Hq. by apply Hdesc, He.
Qed.






(** The fixtures [{ link: Fixture('link', '../escaped.txt') }] and
    [{ sym: Fixture('symlink', '../escaped.txt') }]. *)
Definition escapingLink : heap :=
  <[ 0 := CObject [("link", VRef 1)] ]>
  {[ 1 := CFixture "link" (VStr "../escaped.txt") ]}.

Definition escapingSymlink : heap :=
  <[ 0 := CObject [("sym", VRef 1)] ]>
  {[ 1 := CFixture "symlink" (VStr "../escaped.txt") ]}.


(** Both escaping fixtures of the test suite fail with [IllegalPath] and
    the only call made is the creation of the root. *)
Example escaping_fixtures_fail :
  let link := @Fixture.make posix _ _ 3 escapingLink "/tmp/r" (VRef 0) None freshWorld in
  let sym := @Fixture.make posix _ _ 3 escapingSymlink "/tmp/r" (VRef 0) None freshWorld in
  link.1 = Throw (IllegalPath "/tmp" ["/tmp/r"]) ∧
  trace link.2 = [Ev (Mkdirp "/tmp/r") Done] ∧
  sym.1 = Throw (IllegalPath "/tmp" ["/tmp/r"]) ∧
  trace sym.2 = [Ev (Mkdirp "/tmp/r") Done].
Proof. cbv zeta; repeat apply conj; vm_compute; reflexivity. Qed.

(** ** Deferred symlinks *)





(** ** The final loop *)

Definition symlinkTag (isDirectory : bool) : symlinkType :=
  if isDirectory then SymJunction else SymFile.

(** What the specification asks of the final loop, as a relation between
    the table, the calls made and the result: each pair is checked for
    containment, then its target is looked up, then the symlink is created
    with the tag of the target's kind; the first failure ends the loop. *)
Inductive flush_spec `{Platform} (allowed : list string)
  : list (string * string) → list event → result unit → Prop :=
| flush_done : flush_spec allowed [] [] (Ok tt)
| flush_illegal_link symlinkPath target rest :
    dirname symlinkPath ∉ allowed →
    flush_spec allowed ((symlinkPath, target) :: rest) []
      (Throw (IllegalPath (dirname symlinkPath) allowed))
| flush_illegal_target symlinkPath target rest :
    dirname symlinkPath ∈ allowed → dirname target ∉ allowed →
    flush_spec allowed ((symlinkPath, target) :: rest) []
      (Throw (IllegalPath (dirname target) allowed))
| flush_missing_target symlinkPath target rest :
    dirname symlinkPath ∈ allowed → dirname target ∈ allowed →
    flush_spec allowed ((symlinkPath, target) :: rest)
      [Ev (Stat target) (Failed "ENOENT")] (Throw MissingTarget)
| flush_stat_failed symlinkPath target rest code :
    dirname symlinkPath ∈ allowed → dirname target ∈ allowed →
    code ≠ "ENOENT" →
    flush_spec allowed ((symlinkPath, target) :: rest)
      [Ev (Stat target) (Failed code)] (Throw (FsError code))
| flush_symlink_failed symlinkPath target rest isDirectory code :
    dirname symlinkPath ∈ allowed → dirname target ∈ allowed →
    flush_spec allowed ((symlinkPath, target) :: rest)
      [Ev (Stat target) (IsDirectory isDirectory);
       Ev (Symlink target symlinkPath (symlinkTag isDirectory)) (Failed code)]
      (Throw (FsError code))
| flush_created symlinkPath target rest isDirectory evs res :
    dirname symlinkPath ∈ allowed → dirname target ∈ allowed →
    flush_spec allowed rest evs res →
    flush_spec allowed ((symlinkPath, target) :: rest)
      (Ev (Stat target) (IsDirectory isDirectory)
       :: Ev (Symlink target symlinkPath (symlinkTag isDirectory)) Done
       :: evs)
      res.

(** [{ broken: symlink("does-not-exist") }] *)
Definition brokenSymlink : heap :=
  <[ 0 := CObject [("broken", VRef 1)] ]>
  {[ 1 := CFixture "symlink" (VStr "does-not-exist") ]}.

Section Flush.
Context `{Platform} {FS : Type} `{FileSystem FS}.
Import Sync Fixture.

Lemma flushSymlinks_spec entries : ∀ w : world FS,
  allowedPaths (flushSymlinks entries w).2 = allowedPaths w ∧
  ∃ evs, trace (flushSymlinks entries w).2 = trace w ++ evs ∧
         flush_spec (allowedPaths w) entries evs (flushSymlinks entries w).1.
Proof.
  induction entries as [|[sp t] rest IH]; intros w.
  { split; [done|]. exists []. rewrite app_nil_r. split; [done|constructor]. }
  destruct (flushSymlinks ((sp, t) :: rest) w) as [res w'] eqn:Hrun.
  cbn [fst snd]. cbn [flushSymlinks] in Hrun. unfold createSymlink in Hrun.
  unfold bind at 1 2 in Hrun. rewrite checkIfPathIsAllowed_eq in Hrun.
  destruct (decide (dirname sp ∈ allowedPaths w)) as [Hsp|Hsp].
  2:{ injection Hrun as <- <-. split; [done|]. exists [].
      rewrite app_nil_r. split; [done|]. by constructor. }
  unfold bind at 1 in Hrun. rewrite checkIfPathIsAllowed_eq in Hrun.
  destruct (decide (dirname t ∈ allowedPaths w)) as [Ht|Ht].
  2:{ injection Hrun as <- <-. split; [done|]. exists [].
      rewrite app_nil_r. split; [done|]. by constructor. }
  unfold getSymLinkTargetType, checkIfPathExists, callOrThrow, bind, call,
    ret, throw in Hrun.
  destruct (fs_exec (Stat t) (disk w)) as [[b|code] d] eqn:Hstat.
  - cbn [summarize disk allowedPaths trace] in Hrun.
    destruct (fs_exec (Symlink t sp (if b then SymJunction else SymFile)) d)
      as [[[]|code] d2] eqn:Hsym.
    + cbn [ret summarize] in Hrun.
      match type of Hrun with flushSymlinks rest ?w2 = _ =>
        destruct (IH w2) as (Ha & evs & Htr & Hspec) end.
      rewrite Hrun in Ha, Htr, Hspec.
      cbn [fst snd allowedPaths trace] in *.
      split; [done|]. eexists (_ :: _ :: evs). split.
      * rewrite Htr, <- !app_assoc. reflexivity.
      * by apply (flush_created _ _ _ _ b).
    + cbn [throw summarize] in Hrun. injection Hrun as <- <-.
      cbn [allowedPaths trace].
      split; [done|]. eexists [_; _]. split.
      * rewrite <- !app_assoc. reflexivity.
      * by apply (flush_symlink_failed _ _ _ _ b).
  - cbn [summarize] in Hrun.
    destruct (String.eqb_spec code "ENOENT") as [->|Hcode].
    + cbn [throw] in Hrun. injection Hrun as <- <-. cbn [allowedPaths trace].
      split; [done|]. eexists [_]. split; [reflexivity|]. by constructor.
    + cbn [throw] in Hrun. injection Hrun as <- <-. cbn [allowedPaths trace].
      split; [done|]. eexists [_]. split; [reflexivity|]. by constructor.
Qed.
End Flush.

(** C7.  The final loop refines [flush_spec]: for each pending pair both
    paths pass the containment check before any call is made, the target is
    looked up before the symlink is created, a missing target ends the
    whole call with [MissingTarget] and no [symlink] call, and the type tag
    is [SymJunction] for a directory target and [SymFile] otherwise.  The
    fixture with a symlink to a missing target fails in that way. *)
Theorem C7_flush_checks_then_creates :
  (∀ (P : Platform) (FS : Type) (F : FileSystem FS) entries (w : world FS),
     allowedPaths (Fixture.flushSymlinks entries w).2 = allowedPaths w ∧
     ∃ evs,
       trace (Fixture.flushSymlinks entries w).2 = trace w ++ evs ∧
       flush_spec (allowedPaths w) entries evs
         (Fixture.flushSymlinks entries w).1) ∧
  (symlinkTag true = SymJunction ∧ symlinkTag false = SymFile) ∧
  (let run := @Fixture.make posix _ _ 3 brokenSymlink "/tmp/r" (VRef 0) None
                freshWorld in
   run.1 = Throw MissingTarget ∧
   kind_of MissingTarget = MissingSymlinkTargetError ∧
   trace run.2 = [Ev (Mkdirp "/tmp/r") Done;
                  Ev (Stat "/tmp/r/does-not-exist") (Failed "ENOENT")] ∧
   MemFS.nodes (disk run.2) !! "/tmp/r/broken" = None).
Proof.
  split; [|split].
  - intros. apply flushSymlinks_spec.
  - done.
  - cbv zeta; repeat apply conj; vm_compute; reflexivity.
Qed.

(** ** Reset and collapse of the allowed set *)

Lemma elem_of_resetSet `{Platform} x : x ∈ resetSet ↔ x = cwd ∨ x = tmpdir.
Proof.
  unfold resetSet. rewrite !elem_of_set_add.
  split; [intros [|[|[]%not_elem_of_nil]]|intros [|]]; auto.
Qed.

(** A top-level call on a value that is no fixture content throws before
    it resets the set: the set a previous call left is still there. *)
Lemma C2_counterexample :
  let run := @Fixture.make posix _ _ 3 ∅ "/tmp/r" (VNum 1) None
               (World ["/leaked"] MemFS.initial []) in
  run.1 = Throw (InvalidContent (VNum 1)) ∧
  allowedPaths run.2 = ["/leaked"] ∧
  @resetSet posix = ["/work"; "/tmp"].
Proof. cbv zeta; repeat apply conj; vm_compute; reflexivity. Qed.

(** C2 (amended).  A top-level call whose content passes validation
    continues from the set {cwd, tmpdir}, before any containment check or
    filesystem call (on invalid content it throws and touches nothing);
    once the top-level directory is created the set is exactly its path,
    while a nested directory adds its path; and the result, the disk and
    the calls of a top-level call do not depend on the set a previous call
    left behind. *)
Theorem C2_reset_and_collapse :
  (∀ (P : Platform) x, x ∈ resetSet ↔ x = cwd ∨ x = tmpdir) ∧
  (∀ (P : Platform) (FS : Type) (F : FileSystem FS) fuel h p c t fc
     (w : world FS),
     rawToFixture h c = Ok (t, fc) →
     Fixture.make (S fuel) h p c None w =
       Sync.bind
         (Fixture.makeNode (Fixture.make fuel h) h true (normalize p) t fc [])
         (fun symlinks =>
            Sync.bind (Fixture.flushSymlinks symlinks)
              (fun _ => Sync.ret symlinks))
         (World resetSet (disk w) (trace w))) ∧
  (∀ (P : Platform) (FS : Type) (F : FileSystem FS) fuel h p c symlinks e
     (w : world FS),
     rawToFixture h c = Throw e →
     Fixture.make (S fuel) h p c symlinks w = (Throw e, w)) ∧
  (∀ (P : Platform) (FS : Type) (F : FileSystem FS) rec h np fc tbl
     (w : world FS) d1,
     dirname np ∈ allowedPaths w →
     fs_exec (Mkdirp np) (disk w) = (FsOk tt, d1) →
     Fixture.makeNode rec h true np "dir" fc tbl w =
       Sync.bind (Sync.lift (objectEntries h fc))
         (fun entries => Fixture.makeEntries rec np entries tbl)
         (World [np] d1 (trace w ++ [Ev (Mkdirp np) Done])) ∧
     Fixture.makeNode rec h false np "dir" fc tbl w =
       Sync.bind (Sync.lift (objectEntries h fc))
         (fun entries => Fixture.makeEntries rec np entries tbl)
         (World (set_add np (allowedPaths w)) d1
            (trace w ++ [Ev (Mkdirp np) Done]))) ∧
  (∀ (P : Platform) (FS : Type) (F : FileSystem FS) fuel h p c
     (leaked1 leaked2 : list string) (d : FS) (tr : list event),
     (Fixture.make fuel h p c None (World leaked1 d tr)).1 =
       (Fixture.make fuel h p c None (World leaked2 d tr)).1 ∧
     disk (Fixture.make fuel h p c None (World leaked1 d tr)).2 =
       disk (Fixture.make fuel h p c None (World leaked2 d tr)).2 ∧
     trace (Fixture.make fuel h p c None (World leaked1 d tr)).2 =
       trace (Fixture.make fuel h p c None (World leaked2 d tr)).2).
Proof.
  split; [|split; [|split; [|split]]].
  - intros. apply elem_of_resetSet.
  - intros. by apply make_root_eq.
  - intros. by apply make_invalid.
  - intros. split.
    + by apply makeNode_root_dir.
    + by apply makeNode_nested_dir.
  - intros P FS F fuel h p c a1 a2 d tr. destruct fuel as [|fuel]; [done|].
    destruct (rawToFixture h c) as [[t fc]|e|] eqn:Hfix.
    + by rewrite !(make_root_eq _ _ _ _ _ _ _ Hfix).
    + by rewrite !(make_invalid _ _ _ _ _ _ _ Hfix).
    + by apply rawToFixture_total in Hfix.
Qed.

(** ** The asynchronous materializer against the synchronous one *)

Section Equivalence.
Context `{Platform} {FS : Type} `{FileSystem FS}.

Lemma run_tbind {X Y} (t : task X) (f : X → task Y) : ∀ d tr,
  Async.run (tbind t f) d tr =
    let '(x, d', tr') := Async.run t d tr in Async.run (f x) d' tr'.
Proof.
  induction t as [x|c k IH]; intros d tr; [done|].
  cbn [tbind Async.run]. destruct (fs_exec c d) as [r d']. apply IH.
Qed.

(** What a synchronous computation looks like to an observer of the
    result, the module's set, the disk and the calls. *)
Definition observe {A} (m : M FS A) (a : list string) (d : FS)
    (tr : list event) : result A * list string * FS * list event :=
  let '(r, w) := m (World a d tr) in (r, allowedPaths w, disk w, trace w).

(** [sim am m]: run with a single function in flight, [am] does what [m]
    does. *)
Definition sim {A} (am : AM (list string) A) (m : M FS A) : Prop :=
  ∀ a d tr, Async.run (am a) d tr = observe m a d tr.

Lemma sim_ret {A} (x : A) : sim (Async.ret x) (Sync.ret x).
Proof. by intros a d tr. Qed.

Lemma sim_throw {A} e : sim (A := A) (Async.throw e) (Sync.throw e).
Proof. by intros a d tr. Qed.

Lemma sim_diverge {A} : sim (A := A) Async.diverge Sync.diverge.
Proof. by intros a d tr. Qed.

Lemma sim_lift {A} (r : result A) : sim (Async.lift r) (Sync.lift r).
Proof. by intros a d tr. Qed.

Lemma sim_bind {A B} am m (ak : A → AM (list string) B) k :
  sim am m → (∀ x, sim (ak x) (k x)) → sim (Async.bind am ak) (Sync.bind m k).
Proof.
  intros Hm Hk a d tr. unfold Async.bind. rewrite run_tbind, Hm.
  unfold observe, Sync.bind. destruct (m (World a d tr)) as [[x|e|] [a' d' tr']].
  - cbn [allowedPaths disk trace]. apply Hk.
  - done.
  - done.
Qed.

Lemma sim_when b am m :
  sim am m → sim (Async.when b am) (Sync.when b m).
Proof. intros Hm. destruct b; [done|apply sim_ret]. Qed.

Lemma sim_modify f : sim (Async.modify f) (Sync.setAllowed f).
Proof. by intros a d tr. Qed.

Lemma sim_await c : sim (Async.await c) (Sync.call c).
Proof.
  intros a d tr. unfold Async.await, observe, Sync.call.
  cbn [Async.run disk allowedPaths trace]. by destruct (fs_exec c d).
Qed.

Lemma sim_awaitOrThrow c : sim (Async.awaitOrThrow c) (Sync.callOrThrow c).
Proof.
  apply sim_bind; [apply sim_await|].
  intros [x|code]; [apply sim_ret|apply sim_throw].
Qed.

Lemma sim_check p :
  sim (FixtureAsync.checkIfPathIsAllowed p) (Fixture.checkIfPathIsAllowed p).
Proof.
  intros a d tr.
  unfold FixtureAsync.checkIfPathIsAllowed, Fixture.checkIfPathIsAllowed, observe.
  cbn [allowedPaths]. by destruct (set_has (dirname p) a).
Qed.

Lemma sim_reset :
  sim FixtureAsync.resetAllowedPaths Fixture.resetAllowedPaths.
Proof. apply sim_modify. Qed.

Lemma sim_checkIfPathExists p :
  sim (FixtureAsync.checkIfPathExists p) (Fixture.checkIfPathExists p).
Proof.
  apply sim_bind; [apply sim_await|].
  intros [b|code]; [apply sim_ret|].
  destruct (String.eqb code "ENOENT"); apply sim_throw.
Qed.

Lemma sim_getSymLinkTargetType p :
  sim (FixtureAsync.getSymLinkTargetType p) (Fixture.getSymLinkTargetType p).
Proof.
  apply sim_bind; [apply sim_checkIfPathExists|]. intros b. apply sim_ret.
Qed.

Lemma sim_createSymlink sp t :
  sim (FixtureAsync.createSymlink sp t) (Fixture.createSymlink sp t).
Proof.
  apply sim_bind; [apply sim_check|]. intros _.
  apply sim_bind; [apply sim_check|]. intros _.
  apply sim_bind; [apply sim_getSymLinkTargetType|]. intros ty.
  apply (sim_awaitOrThrow (Symlink t sp ty)).
Qed.

Lemma sim_flushSymlinks entries :
  sim (FixtureAsync.flushSymlinks entries) (Fixture.flushSymlinks entries).
Proof.
  induction entries as [|[sp t] rest IH]; [apply sim_ret|].
  cbn [FixtureAsync.flushSymlinks Fixture.flushSymlinks].
  apply sim_bind; [apply sim_createSymlink|]. intros _. apply IH.
Qed.

Lemma sim_makeEntries arec rec np entries :
  (∀ p c tbl, sim (arec p c tbl) (rec p c tbl)) →
  ∀ tbl, sim (FixtureAsync.makeEntries arec np entries tbl)
             (Fixture.makeEntries rec np entries tbl).
Proof.
  intros Hrec. induction entries as [|[name nested] rest IH]; intros tbl.
  - apply sim_ret.
  - cbn [FixtureAsync.makeEntries Fixture.makeEntries].
    apply sim_bind; [apply Hrec|]. apply IH.
Qed.

Lemma sim_makeNode arec rec h isRoot np t fc tbl :
  (∀ p c tbl, sim (arec p c tbl) (rec p c tbl)) →
  sim (FixtureAsync.makeNode arec h isRoot np t fc tbl)
      (Fixture.makeNode rec h isRoot np t fc tbl).
Proof.
  intros Hrec. unfold FixtureAsync.makeNode, Fixture.makeNode.
  destruct (is_dir t); [|destruct (is_file t); [|destruct (is_link t);
    [|destruct (is_symlink t)]]].
  - apply sim_bind; [apply sim_check|]. intros _.
    apply sim_bind; [apply (sim_awaitOrThrow (Mkdirp np))|]. intros _.
    apply sim_bind; [apply sim_when, sim_modify|]. intros _.
    apply sim_bind; [apply sim_modify|]. intros _.
    apply sim_bind; [apply sim_lift|]. intros entries.
    by apply sim_makeEntries.
  - apply sim_bind; [apply sim_check|]. intros _.
    destruct (toData fc) as [d|]; [|apply sim_throw].
    apply sim_bind; [apply (sim_awaitOrThrow (WriteFile np d))|]. intros _.
    apply sim_ret.
  - destruct fc; try apply sim_throw.
    apply sim_bind; [apply sim_check|]. intros _.
    apply sim_bind; [apply sim_check|]. intros _.
    apply sim_bind; [apply (sim_awaitOrThrow (Link _ _))|]. intros _.
    apply sim_ret.
  - destruct fc; try apply sim_throw. apply sim_ret.
  - apply sim_throw.
Qed.

Lemma sim_make fuel h : ∀ p c tbl,
  sim (FixtureAsync.make fuel h p c tbl) (Fixture.make fuel h p c tbl).
Proof.
  induction fuel as [|fuel IH]; intros p c tbl; [apply sim_diverge|].
  cbn [FixtureAsync.make Fixture.make].
  apply sim_bind; [apply sim_lift|]. intros fixture.
  apply sim_bind; [apply sim_when, sim_reset|]. intros _.
  apply sim_bind; [by apply sim_makeNode|]. intros tbl'.
  apply sim_bind; [apply sim_when, sim_flushSymlinks|]. intros _.
  apply sim_ret.
Qed.
End Equivalence.

(** C9.  Run with a single call in flight, [FixtureAsync.make] returns or
    throws what [Fixture.make] does from the same state, leaves the same
    allowed set and the same disk, and makes the same filesystem calls in
    the same order with the same outcomes. *)
Theorem C9_async_make_agrees_with_sync
    (P : Platform) (FS : Type) (F : FileSystem FS)
    (fuel : nat) (h : heap) (pathIn : string) (content : value)
    (symlinks : option (list (string * string)))
    (allowed : list string) (d : FS) (tr : list event) :
  Async.run (FixtureAsync.make fuel h pathIn content symlinks allowed) d tr =
    (let '(r, w) := Fixture.make fuel h pathIn content symlinks
                      (World allowed d tr) in
     (r, allowedPaths w, disk w, trace w)).
Proof. apply sim_make. Qed.

(** ** The test-directory wrappers without lifecycle hooks *)

(** A runner outside of any running test. *)
Definition noHooks : Runner :=
  {| hooksAvailable := false; onTestFailedHooks := 0; onTestFinishedHooks := 0 |}.

(** [{ file: "some contents" }] *)
Definition oneFile : heap := {[ 0 := CObject [("file", VStr "some contents")] ]}.

(** The synchronous wrapper swallows what the hooks throw: its result does
    not depend on the runner. *)
Lemma sync_createTestDir_ignores_hooks `{Platform} {FS : Type} `{FileSystem FS}
    fuel h content tf rn rn' (w : world FS) :
  (TestFixturesSync.createTestDir fuel h content (Harness tf rn w)).1 =
  (TestFixturesSync.createTestDir fuel h content (Harness tf rn' w)).1.
Proof.
  unfold TestFixturesSync.createTestDir, TestFixturesSync.htry,
    TestFixturesSync.hbind, TestFixturesSync.inProcess,
    TestFixturesSync.onInstance, TestFixturesSync.hook, TestFixturesSync.hret.
  cbn [process instance runner].
  destruct (Sync.callOrThrow _ w) as [[dir|e|] w1]; try done.
  destruct (orEmptyObject h content) as [h' content'].
  cbn [process instance runner].
  destruct (Fixture.make fuel h' dir content' None w1) as [[tbl|e|] w2];
    try done.
  cbn [process instance runner].
  unfold onTestFailed, onTestFinished.
  destruct (hooksAvailable rn), (hooksAvailable rn'); reflexivity.
Qed.

(** C8.  Outside of a running test the synchronous [createTestDir] returns
    the created directory, but the asynchronous one registers its hooks
    with no guard: what the hook throws reaches the outer [catch] and the
    call fails, after the directory and its content were created. *)
Theorem C8_async_createTestDir_fails_without_hooks :
  let sync := @TestFixturesSync.createTestDir posix _ _ 3 oneFile (VRef 0)
                (Harness newTestFixtures noHooks freshWorld) in
  let async := Async.run
                 (@TestFixturesAsync.createTestDir posix 3 oneFile (VRef 0)
                    (AHarness newTestFixtures noHooks []))
                 MemFS.initial [] in
  sync.1 = Ok "/tmp/vitest_0" ∧
  async.1.1.1 = Throw (CreateTestDirFailed HookUnavailable) ∧
  createdTestDir (ainstance async.1.1.2) = true ∧
  async.2 = trace (process sync.2) ∧
  async.2 = [Ev (Mkdtemp "/tmp/vitest_") (Created "/tmp/vitest_0");
             Ev (Mkdirp "/tmp/vitest_0") Done;
             Ev (WriteFile "/tmp/vitest_0/file" (DText "some contents")) Done].
Proof. cbv zeta; repeat apply conj; vm_compute; reflexivity. Qed.

(** * Further properties of the code *)

(** ** Validation terminates *)

Lemma validateEntries_more_fuel rec1 rec2 h es :
  (∀ c seen r, rec1 c seen = r → r ≠ Diverge → rec2 c seen = r) →
  ∀ seen r,
    validateEntries rec1 h es seen = r → r ≠ Diverge →
    validateEntries rec2 h es seen = r.
Proof.
  intros Hrec. induction es as [|[name v] rest IH]; intros seen r Hrun Hr;
    [done|].
  cbn [validateEntries] in *.
  destruct (rawToType h v) as [ty| |]; [|done..]. cbn [rbind] in *.
  destruct (_ && _); [|by apply IH].
  assert (Hstep : ∀ s,
    rbind (rec1 v s) (validateEntries rec1 h rest) = r →
    rbind (rec2 v s) (validateEntries rec2 h rest) = r).
  { intros s Hs. destruct (rec1 v s) as [s1|e|] eqn:H1.
    - rewrite (Hrec _ _ _ H1) by done. by apply IH.
    - by rewrite (Hrec _ _ _ H1).
    - simpl in Hs. congruence. }
  destruct v; try by apply Hstep.
  destruct (decide (r0 ∈ seen)); [done|]. by apply Hstep.
Qed.

Lemma validateDirContents_more_fuel h fuel : ∀ c seen r fuel',
  validateDirContents fuel h c seen = r → r ≠ Diverge → fuel ≤ fuel' →
  validateDirContents fuel' h c seen = r.
Proof.
  induction fuel as [|fuel IH]; intros c seen r fuel' Hrun Hr Hle.
  { simpl in Hrun. congruence. }
  destruct fuel' as [|fuel']; [lia|]. cbn [validateDirContents] in *.
  destruct (objectEntries h c) as [es| |]; [|done..]. cbn [rbind] in *.
  eapply validateEntries_more_fuel; [|exact Hrun|exact Hr].
  intros c' s r' Hc Hr'. eapply IH; eauto. lia.
Qed.

(** X1.  The traversal of [validateDirContents] ends on every heap, cyclic
    or not: the fuel [validationFuel h] is never used up, and any larger
    amount gives the same answer. *)
Theorem validation_terminates (h : heap) (content : value) (seen : gset ref)
    (fuel : nat) :
  validationFuel h ≤ fuel →
  validateDirContents fuel h content seen ≠ Diverge ∧
  validateDirContents fuel h content seen =
    validateDirContents (validationFuel h) h content seen.
Proof.
  intros Hle.
  pose proof (validateDirContents_total h (validationFuel h) content seen
                (validationFuel_enough h seen)) as Htotal.
  assert (Heq : validateDirContents fuel h content seen =
                validateDirContents (validationFuel h) h content seen).
  { eapply validateDirContents_more_fuel; [reflexivity|exact Htotal|exact Hle]. }
  split; [by rewrite Heq|exact Heq].
Qed.

Lemma validation_terminates_witness :
  validateDirContents 10 cyclicTestHeap (VRef 0) {[ 0 ]} =
    Throw (CycleDetected "d").
Proof.
  destruct (validation_terminates cyclicTestHeap (VRef 0) {[ 0 ]} 10) as [_ ->].
  - vm_compute. lia.
  - vm_compute. reflexivity.
Defined.

(** ** The constructor *)

Lemma fresh_not_in_heap (h : heap) : h !! fresh (dom h) = None.
Proof. apply not_elem_of_dom, is_fresh. Qed.

(** X2.  [new Fixture(type, content)] with a type other than ['dir']
    succeeds exactly for a file with a string or byte content and for a
    link or symlink with a string target (the empty string included); and
    whenever a construction succeeds, the new instance is a new cell of
    the heap that [rawToType] classifies as [type] and that [rawToFixture]
    hands back with its type and content, without validating again. *)
Theorem constructor_accepts_and_tags (h : heap) (type : string) (content : value) :
  (type ≠ "dir" →
   ((∃ h' node, newFixture h type content = Ok (h', node)) ↔
      (type = "file" ∧ (is_string content = true ∨ is_bytes content = true)) ∨
      ((type = "link" ∨ type = "symlink") ∧ is_string content = true))) ∧
  (∀ h' node, newFixture h type content = Ok (h', node) →
     node = VRef (fresh (dom h)) ∧
     h !! fresh (dom h) = None ∧
     h' = <[ fresh (dom h) := CFixture type content ]> h ∧
     rawToType h' node = Ok type ∧
     rawToFixture h' node = Ok (type, content)) ∧
  newFixture h "link" (VStr "") =
    Ok (<[ fresh (dom h) := CFixture "link" (VStr "") ]> h, VRef (fresh (dom h))).
Proof.
  split; [|split; [|reflexivity]].
  - intros Hdir. unfold newFixture, assertValidContent.
    destruct (String.eqb_spec type "dir") as [|_]; [contradiction|].
    destruct (String.eqb_spec type "file") as [->|Hfile].
    { destruct (is_string content), (is_bytes content); simpl; split;
        try (intros _; eexists _, _; reflexivity);
        try (intros (? & ? & ?); discriminate);
        try (intros [[_ [?|?]] | [_ ?]]; discriminate).
      - intros _. left. split; [reflexivity|left; reflexivity].
      - intros _. left. split; [reflexivity|left; reflexivity].
      - intros _. left. split; [reflexivity|right; reflexivity]. }
    destruct (String.eqb_spec type "link") as [->|Hlink].
    { destruct (is_string content); simpl; split;
        try (intros _; eexists _, _; reflexivity);
        try (intros (? & ? & ?); discriminate);
        try (intros [[? _] | [_ ?]]; discriminate).
      intros _. right. split; [left; reflexivity|reflexivity]. }
    destruct (String.eqb_spec type "symlink") as [->|Hsym].
    { destruct (is_string content); simpl; split;
        try (intros _; eexists _, _; reflexivity);
        try (intros (? & ? & ?); discriminate);
        try (intros [[? _] | [_ ?]]; discriminate).
      intros _. right. split; [right; reflexivity|reflexivity]. }
    simpl. split; [intros (? & ? & ?); discriminate|].
    intros [[? _] | [[?|?] _]]; contradiction.
  - intros h' node Hnew. unfold newFixture in Hnew.
    destruct (assertValidContent h type content); [|done..].
    simpl in Hnew. injection Hnew as <- <-.
    split; [done|]. split; [apply fresh_not_in_heap|]. split; [done|].
    unfold rawToFixture, rawToType, fixtureType, fixtureContent.
    by rewrite lookup_insert_eq.
Qed.

(** ** The end of a test *)

(** X3.  [#handleTestEnd] cleans up at most once: whatever the first call
    did, the instance is marked finished and a second call changes nothing
    and makes no call.  The first call leaves the process alone when the
    test had already finished, when [keepFixture] is set or when no test
    directory was made; otherwise its one call is the recursive removal of
    [testDir].  The asynchronous wrapper's method does the same. *)
Theorem handleTestEnd_cleans_up_once (FS : Type) (F : FileSystem FS) :
  (∀ s : harness FS,
     testFinished (instance (TestFixturesSync.handleTestEnd s).2) = true ∧
     TestFixturesSync.handleTestEnd (TestFixturesSync.handleTestEnd s).2 =
       (Ok tt, (TestFixturesSync.handleTestEnd s).2) ∧
     (testFinished (instance s) = true ∨ keepFixture (instance s) = true ∨
      testDir (instance s) = None →
      process (TestFixturesSync.handleTestEnd s).2 = process s) ∧
     (∀ dir, testFinished (instance s) = false →
        keepFixture (instance s) = false →
        testDir (instance s) = Some dir → dir ≠ "" →
        ∃ o, trace (process (TestFixturesSync.handleTestEnd s).2) =
               trace (process s) ++ [Ev (RmRecursive dir) o] ∧
             disk (process (TestFixturesSync.handleTestEnd s).2) =
               (fs_exec (RmRecursive dir) (disk (process s))).2)) ∧
  (∀ (s : aharness) (d : FS) (tr : list event),
     let end1 := TestFixturesAsyncEnd.handleTestEnd s d tr in
     testFinished (ainstance end1.1.1.2) = true ∧
     TestFixturesAsyncEnd.handleTestEnd end1.1.1.2 end1.1.2 end1.2 =
       (Ok tt, end1.1.1.2, end1.1.2, end1.2) ∧
     (testFinished (ainstance s) = true ∨ keepFixture (ainstance s) = true ∨
      testDir (ainstance s) = None → end1.1.2 = d ∧ end1.2 = tr) ∧
     (∀ dir, testFinished (ainstance s) = false →
        keepFixture (ainstance s) = false →
        testDir (ainstance s) = Some dir → dir ≠ "" →
        ∃ o, end1.2 = tr ++ [Ev (RmRecursive dir) o] ∧
             end1.1.2 = (fs_exec (RmRecursive dir) d).2)).
Proof.
  split.
  - intros [tf rn w]. unfold TestFixturesSync.handleTestEnd.
    cbn [instance runner process].
    destruct (testFinished tf) eqn:Hfin; cbn [negb].
    { cbn [instance snd]. rewrite Hfin. cbn [negb snd process].
      repeat split; try done; intros; congruence. }
    destruct (keepFixture tf) eqn:Hkeep.
    { cbn [snd instance setTestFinished testFinished negb process].
      repeat split; try done; intros; congruence. }
    destruct (testDir tf) as [dir|] eqn:Hdir.
    2:{ cbn [snd instance setTestFinished testFinished negb process].
        repeat split; try done. }
    destruct (String.eqb_spec dir "") as [->|Hne].
    { cbn [snd instance setTestFinished testFinished negb process].
      repeat split; try done.
      intros dir' _ _ [= <-] Hdir'. done. }
    unfold TestFixturesSync.hbind, TestFixturesSync.inProcess,
      TestFixturesSync.hret.
    cbn [process instance runner].
    destruct (callOrThrow_state (RmRecursive dir) w) as [o Ho].
    destruct (Sync.callOrThrow (RmRecursive dir) w) as [[[]|e|] w1];
      cbn [snd] in Ho; subst w1;
      cbn [snd instance setTestFinished testFinished negb process trace disk].
    all: repeat split; try done.
    all: try (intros [|[|]]; congruence).
    all: intros dir' _ _ [= <-] _; by exists o.
  - intros [tf rn a] d tr. unfold TestFixturesAsyncEnd.handleTestEnd.
    cbn [ainstance arunner aallowed].
    destruct (testFinished tf) eqn:Hfin; cbn [negb].
    { cbn [fst snd ainstance]. rewrite Hfin. cbn [negb].
      repeat split; try done; intros; congruence. }
    destruct (keepFixture tf) eqn:Hkeep.
    { cbn [fst snd ainstance setTestFinished testFinished negb].
      repeat split; try done; intros; congruence. }
    destruct (testDir tf) as [dir|] eqn:Hdir.
    2:{ cbn [fst snd ainstance setTestFinished testFinished negb].
        repeat split; try done. }
    destruct (String.eqb_spec dir "") as [->|Hne].
    { cbn [fst snd ainstance setTestFinished testFinished negb].
      repeat split; try done.
      intros dir' _ _ [= <-] Hdir'. done. }
    destruct (fs_exec (RmRecursive dir) d) as [r d'] eqn:Hexec.
    cbn [fst snd ainstance setTestFinished testFinished negb].
    repeat split; try done.
    all: try match goal with
             | Hor : _ ∨ _ |- _ => destruct Hor as [|[|]]; congruence
             end.
    intros dir' _ _ [= <-] _. eexists. split; [reflexivity|].
    by rewrite Hexec.
Qed.

(** ** The test-directory wrappers *)

(** The runner after both hooks were registered. *)
Definition bothRegistered (rn : Runner) : Runner :=
  {| hooksAvailable := true;
     onTestFailedHooks := S (onTestFailedHooks rn);
     onTestFinishedHooks := S (onTestFinishedHooks rn) |}.

Section Wrappers.
Context `{Platform} {FS : Type} `{FileSystem FS}.

(** The synchronous wrapper, step by step. *)
Lemma sync_createTestDir_eq fuel h content tf rn (w : world FS) :
  TestFixturesSync.createTestDir fuel h content (Harness tf rn w) =
    let pre := join tmpdir "vitest_" in
    match fs_exec (Mkdtemp pre) (disk w) with
    | (FsFail code, d1) =>
        (Throw (CreateTestDirFailed (FsError code)),
         Harness tf rn
           (World (allowedPaths w) d1
              (trace w ++ [Ev (Mkdtemp pre) (Failed code)])))
    | (FsOk dir, d1) =>
        let w1 := World (allowedPaths w) d1
                    (trace w ++ [Ev (Mkdtemp pre) (Created dir)]) in
        match Fixture.make fuel (orEmptyObject h content).1 dir
                (orEmptyObject h content).2 None w1 with
        | (Ok _, w2) =>
            (Ok dir,
             Harness (setCreatedTestDir true (setTestDir dir tf))
               (if hooksAvailable rn then bothRegistered rn else rn) w2)
        | (Throw e, w2) =>
            (Throw (CreateTestDirFailed e), Harness (setTestDir dir tf) rn w2)
        | (Diverge, w2) => (Diverge, Harness (setTestDir dir tf) rn w2)
        end
    end.
Proof.
  unfold TestFixturesSync.createTestDir, TestFixturesSync.htry,
    TestFixturesSync.hbind, TestFixturesSync.inProcess,
    TestFixturesSync.onInstance, TestFixturesSync.hook, TestFixturesSync.hret.
  cbn [process instance runner].
  unfold Sync.callOrThrow, Sync.bind, Sync.call, Sync.ret, Sync.throw.
  cbv zeta.
  destruct (fs_exec (Mkdtemp (join tmpdir "vitest_")) (disk w))
    as [[dir|code] d1]; [|reflexivity].
  cbn [summarize process instance runner].
  destruct (orEmptyObject h content) as [h' content'].
  cbn [fst snd process instance runner].
  destruct (Fixture.make fuel h' dir content' None _) as [[tbl|e|] w2];
    [|reflexivity..].
  cbn [process instance runner].
  unfold onTestFailed, onTestFinished.
  destruct rn as [[] n1 n2]; reflexivity.
Qed.

Lemma run_bind {S A B} (m : AM S A) (k : A → AM S B) s (d : FS) tr :
  Async.run (Async.bind m k s) d tr =
    match Async.run (m s) d tr with
    | (Ok a, s', d', tr') => Async.run (k a s') d' tr'
    | (Throw e, s', d', tr') => (Throw e, s', d', tr')
    | (Diverge, s', d', tr') => (Diverge, s', d', tr')
    end.
Proof.
  unfold Async.bind. rewrite run_tbind.
  by destruct (Async.run (m s) d tr) as [[[[a|e|] s'] d'] tr'].
Qed.

Lemma run_tryCatch {S A} (m : AM S A) handler s (d : FS) tr :
  Async.run (Async.tryCatch m handler s) d tr =
    match Async.run (m s) d tr with
    | (Throw e, s', d', tr') => Async.run (handler e s') d' tr'
    | r => r
    end.
Proof.
  unfold Async.tryCatch. rewrite run_tbind.
  by destruct (Async.run (m s) d tr) as [[[[a|e|] s'] d'] tr'].
Qed.

Lemma run_zoom {S S' A} (get : S → S') set (m : AM S' A) s (d : FS) tr :
  Async.run (Async.zoom get set m s) d tr =
    let '(r, s', d', tr') := Async.run (m (get s)) d tr in
    (r, set s' s, d', tr').
Proof.
  unfold Async.zoom. rewrite run_tbind.
  by destruct (Async.run (m (get s)) d tr) as [[[r s'] d'] tr'].
Qed.

(** The asynchronous wrapper, run with a single call in flight. *)
Lemma async_createTestDir_eq fuel h content tf rn a (d : FS) tr :
  Async.run (TestFixturesAsync.createTestDir fuel h content (AHarness tf rn a))
    d tr =
    let pre := join tmpdir "vitest_" in
    let tf0 := setCreatedTestDir false (setTestFinished false tf) in
    match fs_exec (Mkdtemp pre) d with
    | (FsFail code, d1) =>
        (Throw (CreateTestDirFailed (FsError code)), AHarness tf0 rn a, d1,
         tr ++ [Ev (Mkdtemp pre) (Failed code)])
    | (FsOk dir, d1) =>
        let w1 := World a d1 (tr ++ [Ev (Mkdtemp pre) (Created dir)]) in
        match Fixture.make fuel (orEmptyObject h content).1 dir
                (orEmptyObject h content).2 None w1 with
        | (Ok _, w2) =>
            if hooksAvailable rn then
              (Ok dir,
               AHarness (setCreatedTestDir true (setTestDir dir tf0))
                 (bothRegistered rn) (allowedPaths w2),
               disk w2, trace w2)
            else
              (Throw (CreateTestDirFailed HookUnavailable),
               AHarness (setCreatedTestDir true (setTestDir dir tf0)) rn
                 (allowedPaths w2),
               disk w2, trace w2)
        | (Throw e, w2) =>
            (Throw (CreateTestDirFailed e),
             AHarness (setTestDir dir tf0) rn (allowedPaths w2),
             disk w2, trace w2)
        | (Diverge, w2) =>
            (Diverge, AHarness (setTestDir dir tf0) rn (allowedPaths w2),
             disk w2, trace w2)
        end
    end.
Proof.
  unfold TestFixturesAsync.createTestDir. cbv zeta.
  rewrite run_tryCatch.
  rewrite run_bind. unfold TestFixturesAsync.onInstance at 1, Async.modify at 1.
  cbn [Async.run ainstance arunner aallowed].
  rewrite run_bind. unfold TestFixturesAsync.onInstance at 1, Async.modify at 1.
  cbn [Async.run ainstance arunner aallowed].
  rewrite run_bind. unfold Async.awaitOrThrow. rewrite run_bind.
  unfold Async.await. cbn [Async.run].
  destruct (fs_exec (Mkdtemp (join tmpdir "vitest_")) d) as [[dir|code] d1];
    [|reflexivity].
  cbn [Async.run Async.ret summarize].
  rewrite run_bind. unfold TestFixturesAsync.onInstance at 1, Async.modify at 1.
  cbn [Async.run ainstance arunner aallowed].
  destruct (orEmptyObject h content) as [h' content']. cbn [fst snd].
  rewrite run_bind. unfold TestFixturesAsync.inModule. rewrite run_zoom.
  cbn [aallowed]. rewrite (sim_make fuel h' dir content' None a d1).
  unfold observe.
  destruct (Fixture.make fuel h' dir content' None _) as [[tbl|e|] w2];
    [|reflexivity..].
  cbn [ainstance arunner aallowed].
  rewrite run_bind. unfold TestFixturesAsync.onInstance at 1, Async.modify at 1.
  cbn [Async.run ainstance arunner aallowed].
  rewrite run_bind. unfold TestFixturesAsync.hook at 1, onTestFailed.
  cbn [Async.run ainstance arunner aallowed].
  destruct rn as [[] n1 n2]; [|reflexivity].
  cbn [hooksAvailable Async.run ainstance arunner aallowed].
  rewrite run_bind. unfold TestFixturesAsync.hook, onTestFinished.
  cbn [hooksAvailable Async.run ainstance arunner aallowed]. reflexivity.
Qed.
End Wrappers.

(** ** The wrappers, from start to end *)


Lemma make_trace_extends `{Platform} {FS : Type} `{FileSystem FS}
    fuel h p c (w : world FS) :
  ∃ evs, trace (Fixture.make fuel h p c None w).2 = trace w ++ evs.
Proof.
  destruct (make_root_split fuel h p c w) as (walk & flush & Ht & _).
  by exists (walk ++ flush).
Qed.

(** The synchronous [createTestDir] leaves [testFinished] as it found
    it. *)
Lemma sync_createTestDir_testFinished `{Platform} {FS : Type} `{FileSystem FS}
    fuel h content (s : harness FS) :
  testFinished (instance (TestFixturesSync.createTestDir fuel h content s).2) =
    testFinished (instance s).
Proof.
  destruct s as [tf rn w]. rewrite sync_createTestDir_eq. cbv zeta.
  destruct (fs_exec _ (disk w)) as [[dir|code] d1]; [|reflexivity].
  by destruct (Fixture.make _ _ _ _ _ _) as [[tbl|e|] w2].
Qed.

(** X4.  The synchronous [createTestDir] never touches [keepFixture] or
    [testFinished].  When it returns, it returns the directory that
    [mkdtemp] answered, [testDir] holds it, [createdTestDir] is set, both
    hooks are registered if the runner has hooks, and its first call was
    that [mkdtemp].  When it throws, the error is always the wrapped one,
    and no hook was registered. *)
Theorem sync_createTestDir_outcome (P : Platform) (FS : Type)
    (F : FileSystem FS) (fuel : nat) (h : heap) (content : value)
    (s : harness FS) :
  keepFixture (instance (TestFixturesSync.createTestDir fuel h content s).2) =
    keepFixture (instance s) ∧
  testFinished (instance (TestFixturesSync.createTestDir fuel h content s).2) =
    testFinished (instance s) ∧
  match (TestFixturesSync.createTestDir fuel h content s).1 with
  | Ok dir =>
      testDir (instance (TestFixturesSync.createTestDir fuel h content s).2)
        = Some dir ∧
      createdTestDir
        (instance (TestFixturesSync.createTestDir fuel h content s).2) = true ∧
      runner (TestFixturesSync.createTestDir fuel h content s).2 =
        (if hooksAvailable (runner s) then bothRegistered (runner s)
         else runner s) ∧
      ∃ evs,
        trace (process (TestFixturesSync.createTestDir fuel h content s).2) =
          trace (process s)
          ++ Ev (Mkdtemp (join tmpdir "vitest_")) (Created dir) :: evs
  | Throw e =>
      (∃ cause, e = CreateTestDirFailed cause) ∧
      runner (TestFixturesSync.createTestDir fuel h content s).2 = runner s
  | Diverge => True
  end.
Proof.
  destruct s as [tf rn w]. rewrite sync_createTestDir_eq. cbv zeta.
  destruct (fs_exec _ (disk w)) as [[dir|code] d1].
  2: { cbn [fst snd instance runner process].
       repeat apply conj; try reflexivity; by eexists. }
  match goal with |- context [Fixture.make fuel ?h' dir ?c' None ?w1] =>
    destruct (make_trace_extends fuel h' dir c' w1) as [evs Hevs];
    destruct (Fixture.make fuel h' dir c' None w1) as [[tbl|e|] w2]
  end; cbn [fst snd instance runner process] in *.
  - repeat apply conj; try reflexivity. exists evs. rewrite Hevs. cbn [trace].
    by rewrite <- app_assoc.
  - repeat apply conj; try reflexivity; by eexists.
  - repeat apply conj; try reflexivity; exact I.
Qed.

(** X5.  The asynchronous [createTestDir], run with a single call in
    flight, resets [testFinished] and never touches [keepFixture].  It
    returns only when the runner has hooks; then it returns the directory
    that [mkdtemp] answered, with [testDir] and [createdTestDir] set and
    both hooks registered.  When it throws, the error is always the
    wrapped one. *)
Theorem async_createTestDir_outcome (P : Platform) (FS : Type)
    (F : FileSystem FS) (fuel : nat) (h : heap) (content : value)
    (s : aharness) (d : FS) (tr : list event) :
  let run := Async.run (TestFixturesAsync.createTestDir fuel h content s) d tr in
  keepFixture (ainstance run.1.1.2) = keepFixture (ainstance s) ∧
  testFinished (ainstance run.1.1.2) = false ∧
  match run.1.1.1 with
  | Ok dir =>
      hooksAvailable (arunner s) = true ∧
      testDir (ainstance run.1.1.2) = Some dir ∧
      createdTestDir (ainstance run.1.1.2) = true ∧
      arunner run.1.1.2 = bothRegistered (arunner s) ∧
      ∃ evs,
        run.2 = tr ++ Ev (Mkdtemp (join tmpdir "vitest_")) (Created dir) :: evs
  | Throw e => ∃ cause, e = CreateTestDirFailed cause
  | Diverge => True
  end.
Proof.
  destruct s as [tf rn a]. cbv zeta. rewrite async_createTestDir_eq. cbv zeta.
  destruct (fs_exec _ d) as [[dir|code] d1].
  2: { cbn [fst snd ainstance arunner aallowed].
       repeat apply conj; try reflexivity; by eexists. }
  match goal with |- context [Fixture.make fuel ?h' dir ?c' None ?w1] =>
    destruct (make_trace_extends fuel h' dir c' w1) as [evs Hevs];
    destruct (Fixture.make fuel h' dir c' None w1) as [[tbl|e|] w2]
  end; cbn [fst snd ainstance arunner aallowed] in *.
  - destruct (hooksAvailable rn) eqn:Hhooks;
      cbn [fst snd ainstance arunner aallowed].
    + repeat apply conj; try reflexivity. exists evs. rewrite Hevs.
      cbn [trace]. by rewrite <- app_assoc.
    + repeat apply conj; try reflexivity; by eexists.
  - repeat apply conj; try reflexivity; by eexists.
  - repeat apply conj; try reflexivity; exact I.
Qed.

(** X6.  Once a test has ended, the synchronous wrapper never cleans up
    again: [createTestDir] leaves [testFinished] set, so the
    [handleTestEnd] registered for the next test directory is a no-op and
    that directory stays on the disk. *)
Theorem sync_cleanup_only_after_first_test (P : Platform) (FS : Type)
    (F : FileSystem FS) (fuel : nat) (h : heap) (content : value)
    (s : harness FS) :
  testFinished (instance s) = true →
  TestFixturesSync.handleTestEnd
    (TestFixturesSync.createTestDir fuel h content s).2 =
    (Ok tt, (TestFixturesSync.createTestDir fuel h content s).2).
Proof.
  intros Hfin. unfold TestFixturesSync.handleTestEnd.
  by rewrite sync_createTestDir_testFinished, Hfin.
Qed.

(** A finished instance, in a runner with hooks, on the in-memory disk. *)
Definition withHooks : Runner :=
  {| hooksAvailable := true; onTestFailedHooks := 0; onTestFinishedHooks := 0 |}.

Definition finishedHarness : harness MemFS.t :=
  Harness (setTestFinished true newTestFixtures) withHooks freshWorld.

Lemma sync_cleanup_only_after_first_test_witness :
  (@TestFixturesSync.createTestDir posix _ _ 3 oneFile (VRef 0)
     finishedHarness).1 = Ok "/tmp/vitest_0" ∧
  TestFixturesSync.handleTestEnd
    (@TestFixturesSync.createTestDir posix _ _ 3 oneFile (VRef 0)
       finishedHarness).2 =
    (Ok tt,
     (@TestFixturesSync.createTestDir posix _ _ 3 oneFile (VRef 0)
        finishedHarness).2).
Proof.
  split; [vm_compute; reflexivity|].
  apply (sync_cleanup_only_after_first_test posix MemFS.t _ 3 oneFile (VRef 0)
           finishedHarness).
  reflexivity.
Defined.

(** X7.  The asynchronous wrapper cleans up after every test: it resets
    [testFinished], so when [createTestDir] has returned a directory and
    [keepFixture] is not set, the next [handleTestEnd] makes exactly one
    more call, the recursive removal of that directory, and marks the
    instance finished. *)
Theorem async_cleanup_after_every_test (P : Platform) (FS : Type)
    (F : FileSystem FS) (fuel : nat) (h : heap) (content : value)
    (s : aharness) (d : FS) (tr : list event) (dir : string) :
  (Async.run (TestFixturesAsync.createTestDir fuel h content s) d tr).1.1.1 =
    Ok dir →
  keepFixture (ainstance s) = false →
  dir ≠ "" →
  ∃ o,
    (TestFixturesAsyncEnd.handleTestEnd
       (Async.run (TestFixturesAsync.createTestDir fuel h content s) d tr).1.1.2
       (Async.run (TestFixturesAsync.createTestDir fuel h content s) d tr).1.2
       (Async.run (TestFixturesAsync.createTestDir fuel h content s) d tr).2).2 =
      (Async.run (TestFixturesAsync.createTestDir fuel h content s) d tr).2
      ++ [Ev (RmRecursive dir) o] ∧
    testFinished (ainstance
      (TestFixturesAsyncEnd.handleTestEnd
         (Async.run (TestFixturesAsync.createTestDir fuel h content s) d tr).1.1.2
         (Async.run (TestFixturesAsync.createTestDir fuel h content s) d tr).1.2
         (Async.run (TestFixturesAsync.createTestDir fuel h content s) d tr).2
      ).1.1.2) = true.
Proof.
  destruct s as [tf rn a]. cbn [ainstance]. intros Hok Hkeep Hdir.
  rewrite async_createTestDir_eq in *. cbv zeta in *.
  destruct (fs_exec _ d) as [[dir0|code] d1]; [|done].
  destruct (Fixture.make _ _ _ _ _ _) as [[tbl|e|] w2]; [|done..].
  destruct (hooksAvailable rn); [|done].
  cbn [fst snd] in *. injection Hok as ->.
  unfold TestFixturesAsyncEnd.handleTestEnd.
  cbn [ainstance arunner aallowed setCreatedTestDir setTestDir setTestFinished
       testFinished keepFixture testDir negb].
  rewrite Hkeep.
  destruct (String.eqb_spec dir "") as [|_]; [done|].
  destruct (fs_exec (RmRecursive dir) (disk w2)) as [r d2].
  cbn [fst snd ainstance testFinished setTestFinished]. by eexists.
Qed.

Lemma async_cleanup_after_every_test_witness :
  ∃ o,
    (TestFixturesAsyncEnd.handleTestEnd
       (Async.run (@TestFixturesAsync.createTestDir posix 3 oneFile (VRef 0)
                     (AHarness newTestFixtures withHooks [])) MemFS.initial []).1.1.2
       (Async.run (@TestFixturesAsync.createTestDir posix 3 oneFile (VRef 0)
                     (AHarness newTestFixtures withHooks [])) MemFS.initial []).1.2
       (Async.run (@TestFixturesAsync.createTestDir posix 3 oneFile (VRef 0)
                     (AHarness newTestFixtures withHooks [])) MemFS.initial []).2).2 =
      (Async.run (@TestFixturesAsync.createTestDir posix 3 oneFile (VRef 0)
                    (AHarness newTestFixtures withHooks [])) MemFS.initial []).2
      ++ [Ev (RmRecursive "/tmp/vitest_0") o].
Proof.
  destruct (async_cleanup_after_every_test posix MemFS.t _ 3 oneFile (VRef 0)
              (AHarness newTestFixtures withHooks []) MemFS.initial []
              "/tmp/vitest_0") as (o & Ho & _).
  - vm_compute. reflexivity.
  - reflexivity.
  - discriminate.
  - exists o. exact Ho.
Defined.


(** ** Containment on POSIX paths *)

Module PosixFacts.

Lemma prefix_append a b : String.prefix a (String.append a b) = true.
Proof.
  induction a as [|c a IH]; simpl; [by destruct b|].
  destruct (ascii_dec c c); [apply IH|done].
Qed.

Lemma prefix_extend a b c :
  String.prefix a b = true → String.prefix a (String.append b c) = true.
Proof.
  revert b. induction a as [|x a IH]; intros b Hp; simpl; [by destruct (String.append b c)|].
  destruct b as [|y b]; [done|]. simpl in *.
  destruct (ascii_dec x y); [by apply IH|done].
Qed.

Lemma prefix_append_slash a rest :
  String.prefix (String.append a "/") (String.append a (String Posix.slash rest)) = true.
Proof.
  induction a as [|c a IH]; simpl.
  - destruct (ascii_dec "/" Posix.slash); [by destruct rest|done].
  - destruct (ascii_dec c c); [apply IH|done].
Qed.

Lemma length_append_string a b :
  String.length (String.append a b) = String.length a + String.length b.
Proof. induction a as [|c a IH]; simpl; [done|]. by rewrite IH. Qed.

Lemma prefix_length_le a : ∀ b,
  String.prefix a b = true → String.length a ≤ String.length b.
Proof.
  induction a as [|x a IH]; intros b Hp; simpl; [lia|].
  destruct b as [|y b]; [done|]. simpl in *.
  destruct (ascii_dec x y); [|done]. apply IH in Hp. lia.
Qed.

Lemma length_chars s : length (list_ascii_of_string s) = String.length s.
Proof. induction s as [|c s IH]; simpl; [done|]. by rewrite IH. Qed.

(** The scan stops on a slash that has a character other than a slash
    somewhere after it. *)
Lemma scanEnd_Some rcs : ∀ i m e,
  Posix.scanEnd rcs i m = Some e → i = length rcs →
  ∃ after before, rcs = after ++ Posix.slash :: before ∧ e = S (length before).
Proof.
  induction rcs as [|c rcs IH]; intros i m e Hscan Hi; [done|].
  simpl in Hscan, Hi. subst i.
  destruct (Ascii.eqb_spec c Posix.slash) as [->|Hc].
  - destruct m.
    + destruct (IH _ _ _ Hscan eq_refl) as (after & before & -> & ->).
      by exists (Posix.slash :: after), before.
    + injection Hscan as <-. by exists [], rcs.
  - destruct (IH _ _ _ Hscan eq_refl) as (after & before & -> & ->).
    by exists (c :: after), before.
Qed.

Lemma substring_prefix_chars c0 (l1 l2 : list ascii) :
  substring 0 (S (length l1))
    (String c0 (string_of_list_ascii (l1 ++ l2))) =
  String c0 (string_of_list_ascii l1).
Proof.
  revert c0. induction l1 as [|c l1 IH]; intros c0; simpl.
  - by destruct (string_of_list_ascii l2).
  - f_equal. apply IH.
Qed.

Lemma string_of_list_ascii_app l1 l2 :
  string_of_list_ascii (l1 ++ l2) =
  String.append (string_of_list_ascii l1) (string_of_list_ascii l2).
Proof. induction l1 as [|c l1 IH]; simpl; [done|]. by rewrite IH. Qed.

(** [dirname p] is one of the three roots or [p] up to one of its slashes. *)
Lemma dirname_cases p :
  Posix.dirname p = "." ∨ Posix.dirname p = "/" ∨ Posix.dirname p = "//" ∨
  ∃ rest, p = String.append (Posix.dirname p) (String Posix.slash rest).
Proof.
  destruct p as [|c0 tl]; [by left|]. unfold Posix.dirname.
  destruct (Posix.scanEnd _ _ _) as [e|] eqn:Hscan.
  2:{ destruct (Ascii.eqb c0 Posix.slash); auto. }
  apply scanEnd_Some in Hscan as (after & before & Hrev & ->).
  2:{ by rewrite length_rev, length_chars. }
  destruct (Ascii.eqb c0 Posix.slash && Nat.eqb (S (length before)) 1); [auto|].
  right; right; right.
  assert (Htl : tl = string_of_list_ascii (rev before ++ Posix.slash :: rev after)).
  { rewrite <- (string_of_list_ascii_of_string tl).
    rewrite <- (rev_involutive (list_ascii_of_string tl)), Hrev.
    rewrite rev_app_distr. simpl. by rewrite <- app_assoc. }
  exists (string_of_list_ascii (rev after)).
  clear Hrev. subst tl. rewrite <- (length_rev before).
  rewrite substring_prefix_chars. simpl. f_equal.
  by rewrite string_of_list_ascii_app.
Qed.

(** For a root that is a proper directory name, what descends from it is
    the root or a path that starts with the root and a slash. *)
Lemma descends_prefix workdir tempdir root p :
  root ≠ "" → root ≠ "." → root ≠ "/" → root ≠ "//" →
  @descends (posixPlatform workdir tempdir) root p →
  p = root ∨ String.prefix (String.append root "/") p = true.
Proof.
  intros H0 H1 H2 H3 [k Hk]. revert p Hk.
  assert (Hroots : ∀ d, d = "." ∨ d = "/" ∨ d = "//" →
            ¬ (d = root ∨ String.prefix (String.append root "/") d = true)).
  { intros d Hd [->|Hp]; [naive_solver|].
    destruct root as [|c rest]; [done|].
    destruct Hd as [-> | [-> | ->]]; simpl in Hp.
    - destruct (ascii_dec c "."); [|done]. by destruct rest.
    - destruct (ascii_dec c "/"); [|done]. by destruct rest.
    - destruct (ascii_dec c "/") as [Hc|]; [|done]. subst c.
      destruct rest as [|c' rest]; [done|]. simpl in Hp.
      destruct (ascii_dec c' "/"); [|done]. by destruct rest. }
  induction k as [|k IH]; intros p Hk; [by left|].
  rewrite Nat.iter_succ_r in Hk. apply IH in Hk.
  change (@dirname (posixPlatform workdir tempdir) p)
    with (Posix.dirname p) in Hk.
  destruct (dirname_cases p) as [Hd|[Hd|[Hd|[rest Hp]]]];
    try (exfalso; eapply Hroots; [|exact Hk]; auto; fail).
  right. rewrite Hp. destruct Hk as [->|Hk].
  - apply prefix_append_slash.
  - by apply prefix_extend.
Qed.

(** What lies strictly inside such a root starts with the root and a
    slash. *)
Lemma strictly_inside_prefix workdir tempdir root q :
  root ≠ "" → root ≠ "." → root ≠ "/" → root ≠ "//" →
  @strictly_inside (posixPlatform workdir tempdir) root q →
  String.prefix (String.append root "/") q = true.
Proof.
  intros H0 H1 H2 H3 [k Hk].
  assert (Hq : @descends (posixPlatform workdir tempdir) root q).
  { exists (S k). by rewrite Nat.iter_succ_r. }
  destruct (descends_prefix _ _ _ _ H0 H1 H2 H3 Hq) as [->|]; [|done].
  exfalso. clear Hq.
  assert (Hd : @descends (posixPlatform workdir tempdir) root
                 (Posix.dirname root)) by by exists k.
  destruct (descends_prefix _ _ _ _ H0 H1 H2 H3 Hd) as [Heq|Hp].
  - destruct (dirname_cases root) as [Hc|[Hc|[Hc|[rest Hc]]]];
      try congruence.
    rewrite Heq in Hc. apply (f_equal String.length) in Hc.
    rewrite length_append_string in Hc. simpl in Hc. lia.
  - destruct (dirname_cases root) as [Hc|[Hc|[Hc|[rest Hc]]]].
    + rewrite Hc in Hp. destruct root as [|c r]; [done|]. simpl in Hp.
      destruct (ascii_dec c "."); [|done]. by destruct r.
    + rewrite Hc in Hp. destruct root as [|c r]; [done|]. simpl in Hp.
      destruct (ascii_dec c "/"); [|done]. by destruct r.
    + rewrite Hc in Hp. destruct root as [|c r]; [done|]. simpl in Hp.
      destruct (ascii_dec c "/"); [|done]. subst c.
      destruct r as [|c' r]; [done|]. simpl in Hp.
      destruct (ascii_dec c' "/"); [|done]. by destruct r.
    + apply prefix_length_le in Hp. rewrite length_append_string in Hp.
      apply (f_equal String.length) in Hc. rewrite length_append_string in Hc.
      simpl in Hc, Hp. lia.
Qed.
End PosixFacts.

(** X8.  On POSIX paths containment is textual: in a top-level call on a
    directory fixture whose root was created, when the normalized root
    is a proper directory name, every path of every later call (file,
    directory, both ends of a link, both ends of a symlink, the path of
    a stat) starts with the root followed by a slash. *)
Theorem posix_calls_start_with_root (FS : Type) (F : FileSystem FS)
    (workdir tempdir : string) (fuel : nat) (h : heap) (p : string)
    (c fc : value) (w : world FS) (d1 : FS) :
  rawToFixture h c = Ok ("dir", fc) →
  Posix.dirname (Posix.normalize p) ∈ @resetSet (posixPlatform workdir tempdir) →
  fs_exec (Mkdirp (Posix.normalize p)) (disk w) = (FsOk tt, d1) →
  Posix.normalize p ∉ [""; "."; "/"; "//"] →
  ∃ evs,
    trace (@Fixture.make (posixPlatform workdir tempdir) FS F (S fuel) h p c
             None w).2 =
      trace w ++ Ev (Mkdirp (Posix.normalize p)) Done :: evs ∧
    ∀ e q, e ∈ evs → q ∈ paths_of e →
      String.prefix (String.append (Posix.normalize p) "/") q = true.
Proof.
  intros Hfix Hin Hexec Hroot.
  destruct (make_root_inside (posixPlatform workdir tempdir) FS F fuel h p c
              fc w d1 Hfix Hin Hexec) as (evs & Ht & _ & _ & Hall).
  exists evs. split; [exact Ht|]. intros e q He Hq.
  rewrite Forall_forall in Hall.
  apply (PosixFacts.strictly_inside_prefix workdir tempdir);
    try (intros Heq; apply Hroot; rewrite Heq; set_solver).
  by apply (Hall e He q Hq).
Qed.

Lemma posix_calls_start_with_root_witness :
  ∃ evs,
    trace (@Fixture.make posix _ _ 3 roundTrip "/tmp/r" (VRef 0) None
             freshWorld).2 =
      Ev (Mkdirp "/tmp/r") Done :: evs ∧
    ∀ e q, e ∈ evs → q ∈ paths_of e → String.prefix "/tmp/r/" q = true.
Proof.
  destruct (posix_calls_start_with_root MemFS.t _ "/work" "/tmp" 2 roundTrip
              "/tmp/r" (VRef 0) (VRef 0) freshWorld
              (MemFS.put "/tmp/r" MemFS.NDir MemFS.initial))
    as (evs & Ht & Hall).
  - vm_compute. reflexivity.
  - vm_compute. repeat constructor.
  - vm_compute. reflexivity.
  - change (Posix.normalize "/tmp/r") with "/tmp/r". set_solver.
  - exists evs. split; [exact Ht|exact Hall].
Defined.

(** ** Keeping the fixture *)

Section KeepFixture.
Context `{Platform} {FS : Type} `{FileSystem FS}.

(** The synchronous [createTestDir] leaves [keepFixture] as it found it. *)
Lemma sync_createTestDir_keepFixture fuel h content (s : harness FS) :
  keepFixture (instance (TestFixturesSync.createTestDir fuel h content s).2) =
    keepFixture (instance s).
Proof.
  destruct s as [tf rn w]. rewrite sync_createTestDir_eq. cbv zeta.
  destruct (fs_exec _ (disk w)) as [[dir|code] d1]; [|reflexivity].
  by destruct (Fixture.make _ _ _ _ _ _) as [[tbl|e|] w2].
Qed.

(** So does the asynchronous one. *)
Lemma async_createTestDir_keepFixture fuel h content s (d : FS) tr :
  keepFixture
    (ainstance
       (Async.run (TestFixturesAsync.createTestDir fuel h content s) d tr)
       .1.1.2) =
    keepFixture (ainstance s).
Proof.
  destruct s as [tf rn a]. rewrite async_createTestDir_eq. cbv zeta.
  destruct (fs_exec _ d) as [[dir|code] d1]; [|reflexivity].
  destruct (Fixture.make _ _ _ _ _ _) as [[tbl|e|] w2]; [|reflexivity..].
  by destruct (hooksAvailable rn).
Qed.

(** With [keepFixture] set, [#handleTestEnd] leaves the process alone. *)
Lemma sync_handleTestEnd_kept (s : harness FS) :
  keepFixture (instance s) = true →
  process (TestFixturesSync.handleTestEnd s).2 = process s.
Proof.
  intros Hkeep. unfold TestFixturesSync.handleTestEnd. rewrite Hkeep.
  by destruct (negb _).
Qed.

Lemma async_handleTestEnd_kept (s : aharness) (d : FS) tr :
  keepFixture (ainstance s) = true →
  (TestFixturesAsyncEnd.handleTestEnd s d tr).1.2 = d ∧
  (TestFixturesAsyncEnd.handleTestEnd s d tr).2 = tr.
Proof.
  intros Hkeep. unfold TestFixturesAsyncEnd.handleTestEnd. rewrite Hkeep.
  by destruct (negb _).
Qed.
End KeepFixture.

(** X9.  [keepFixture] is read when the test ends, not when the directory
    is made: whether the setter is called before [createTestDir] or after
    it, the [#handleTestEnd] that follows makes no call and leaves the
    disk as [createTestDir] left it, whatever [createTestDir] did.  This
    holds for both wrappers. *)
Theorem keepFixture_is_read_at_test_end (P : Platform) (FS : Type)
    (F : FileSystem FS) (fuel : nat) (h : heap) (content : value) :
  (∀ s : harness FS,
     let before :=
       Harness (setKeepFixture true (instance s)) (runner s) (process s) in
     let made := (TestFixturesSync.createTestDir fuel h content before).2 in
     process (TestFixturesSync.handleTestEnd made).2 = process made) ∧
  (∀ s : harness FS,
     let made := (TestFixturesSync.createTestDir fuel h content s).2 in
     let after :=
       Harness (setKeepFixture true (instance made)) (runner made)
         (process made) in
     process (TestFixturesSync.handleTestEnd after).2 = process made) ∧
  (∀ (s : aharness) (d : FS) (tr : list event),
     let before :=
       AHarness (setKeepFixture true (ainstance s)) (arunner s) (aallowed s) in
     let made :=
       Async.run (TestFixturesAsync.createTestDir fuel h content before) d tr in
     let ended :=
       TestFixturesAsyncEnd.handleTestEnd made.1.1.2 made.1.2 made.2 in
     ended.1.2 = made.1.2 ∧ ended.2 = made.2) ∧
  (∀ (s : aharness) (d : FS) (tr : list event),
     let made :=
       Async.run (TestFixturesAsync.createTestDir fuel h content s) d tr in
     let after :=
       AHarness (setKeepFixture true (ainstance made.1.1.2))
         (arunner made.1.1.2) (aallowed made.1.1.2) in
     let ended := TestFixturesAsyncEnd.handleTestEnd after made.1.2 made.2 in
     ended.1.2 = made.1.2 ∧ ended.2 = made.2).
Proof.
  split; [|split; [|split]].
  - intros s before made. apply sync_handleTestEnd_kept. subst made.
    by rewrite sync_createTestDir_keepFixture.
  - intros s made after.
    by rewrite (sync_handleTestEnd_kept after eq_refl).
  - intros s d tr before made ended. apply async_handleTestEnd_kept.
    subst made. by rewrite async_createTestDir_keepFixture.
  - intros s d tr made after ended. by apply async_handleTestEnd_kept.
Qed.
